(** * qself: the record reconciliation engine

    A shallow embedding of the merge code of qself (mergeReadings,
    mergeTweets, flipDuplicateTweetsOnTrivialChanges and the reflection
    based helpers sliceUniq, sliceKeepOnly and sliceReverse) together with
    the properties of its specification, and of the code around it: the
    conversions from the API types (tweetFromAPITweet,
    readingFromAPIReview), the pagination loop of syncTwitter and earlier
    revisions of the two reconcilers.

    Go slices are modelled as headers (backing array, offset, length,
    capacity) over a heap of backing arrays, so that the in-place writes of
    the helpers and the sharing between a slice and the slices derived from
    it are visible.  Every function that indexes a slice returns an option:
    [None] stands for Go's index-out-of-range panic.

    The elements of a [[]*Tweet] or [[]*Reading] are modelled by the
    records they point to: the merge code moves these pointers between
    cells and reads the records, and never writes through a pointer.  The
    batches hold no nil entry (tweetFromAPITweet and readingFromAPIReview
    always return an allocated record). *)

From stdpp Require Import base decidable option list gmap strings sorting.
From Stdlib Require Import ZArith Lia.

Set Warnings "-clear-no-such-hyp".

Local Open Scope Z_scope.

(** ** Go's [int]

    [int] is a 64-bit two's complement integer on the platforms qself is
    built for; arithmetic wraps around silently. *)

Definition int_min : Z := - 2 ^ 63.
Definition int_max : Z := 2 ^ 63 - 1.

Definition wrap (z : Z) : Z := (z + 2 ^ 63) mod 2 ^ 64 - 2 ^ 63.

Definition int_sub (x y : Z) : Z := wrap (x - y).
Definition int_neg (x : Z) : Z := wrap (- x).

(** func absInt(x int) int *)
Definition absInt (x : Z) : Z :=
  if decide (x < 0) then int_neg x else x.

(** ** Records

    A [*T] field is an [option T] ([None] is the nil pointer) and a slice
    field an [option (list _)] ([None] is the nil slice, which
    reflect.DeepEqual tells apart from an empty one).  [time.Time] values
    are never inspected by the merge code and are kept as an instant. *)

Record TweetEntitiesMedia := {
  MediaID : Z;
  MediaType : string;
  MediaURL : string
}.

Record TweetEntitiesURL := {
  DisplayURL : string;
  ExpandedURL : string;
  URL : string
}.

Record TweetEntitiesUserMention := {
  MentionUser : string;
  MentionUserID : Z
}.

Record TweetEntities := {
  Medias : option (list (option TweetEntitiesMedia));
  URLs : option (list (option TweetEntitiesURL));
  UserMentions : option (list (option TweetEntitiesUserMention))
}.

Record TweetReply := {
  ReplyStatusID : Z;
  ReplyUser : string;
  ReplyUserID : Z
}.

Record TweetRetweet := {
  RetweetStatusID : Z;
  RetweetUser : string;
  RetweetUserID : Z
}.

Record Tweet := {
  CreatedAt : Z;
  Entities : option TweetEntities;
  FavoriteCount : Z;
  ID : Z;
  Reply : option TweetReply;
  Retweet : option TweetRetweet;
  RetweetCount : Z;
  Text : string
}.

Record ReadingAuthor := {
  AuthorID : Z;
  AuthorName : string
}.

Record Reading := {
  Authors : option (list (option ReadingAuthor));
  BookID : Z;
  ISBN : string;
  ISBN13 : string;
  NumPages : Z;
  PublishedYear : Z;
  ReadAt : Z;
  Rating : Z;
  Review : string;
  ReviewID : Z;
  Title : string
}.

#[global] Instance TweetEntitiesMedia_eq_dec : EqDecision TweetEntitiesMedia.
Proof. solve_decision. Defined.
#[global] Instance TweetEntitiesURL_eq_dec : EqDecision TweetEntitiesURL.
Proof. solve_decision. Defined.
#[global] Instance TweetEntitiesUserMention_eq_dec :
  EqDecision TweetEntitiesUserMention.
Proof. solve_decision. Defined.
#[global] Instance TweetEntities_eq_dec : EqDecision TweetEntities.
Proof. solve_decision. Defined.
#[global] Instance TweetReply_eq_dec : EqDecision TweetReply.
Proof. solve_decision. Defined.
#[global] Instance TweetRetweet_eq_dec : EqDecision TweetRetweet.
Proof. solve_decision. Defined.
#[global] Instance Tweet_eq_dec : EqDecision Tweet.
Proof. solve_decision. Defined.
#[global] Instance ReadingAuthor_eq_dec : EqDecision ReadingAuthor.
Proof. solve_decision. Defined.
#[global] Instance Reading_eq_dec : EqDecision Reading.
Proof. solve_decision. Defined.

(** ** Slices over a heap of backing arrays *)

Record slice := Slice { arr : nat; off : nat; len : nat; cap : nat }.

(** The nil slice. *)
Definition nil_slice : slice := Slice 0 0 0 0.

Local Close Scope Z_scope.

(** A heap is the list of the backing arrays allocated so far; an array
    is named by its position. *)
Abbreviation heap A := (list (list A)) (only parsing).

Section heap.
Context {A : Type}.

Definition backing (h : heap A) (s : slice) : list A :=
  default [] (h !! arr s).

(** The elements a slice denotes. *)
Definition content (h : heap A) (s : slice) : list A :=
  take (len s) (drop (off s) (backing h s)).

(** A slice header is well formed in a heap when its window lies inside
    its backing array. *)
Definition wf (h : heap A) (s : slice) : Prop :=
  len s ≤ cap s ∧ off s + cap s ≤ length (backing h s).

(** [splice o c a] overwrites the cells [o, o + length c) of [a]. *)
Definition splice (o : nat) (c : list A) (a : list A) : list A :=
  take o a ++ c ++ drop (o + length c) a.

(** s[i] *)
Definition load (h : heap A) (s : slice) (i : nat) : option A :=
  if decide (i < len s) then backing h s !! (off s + i) else None.

(** s[i] = v *)
Definition store (h : heap A) (s : slice) (i : nat) (v : A)
    : option (heap A) :=
  if decide (i < len s)
  then Some (alter (λ a, <[off s + i := v]> a) (arr s) h)
  else None.

(** s[i], s[j] = s[j], s[i] *)
Definition swap (h : heap A) (s : slice) (i j : nat) : option (heap A) :=
  x ← load h s i;
  y ← load h s j;
  h1 ← store h s i y;
  store h1 s j x.

(** The heap in which the window of [s] holds [c]. *)
Definition set_content (h : heap A) (s : slice) (c : list A) : heap A :=
  alter (splice (off s) c) (arr s) h.

(** append(s1, s2...): the elements of [s2] are copied behind those of
    [s1], in the backing array of [s1] when its capacity suffices and in
    a newly allocated array otherwise.  (The Go runtime may give the new
    array spare capacity; no code below looks at it.) *)
Definition append (h : heap A) (s1 s2 : slice) : heap A * slice :=
  let c2 := content h s2 in
  if decide (len s1 + len s2 ≤ cap s1) then
    (alter (splice (off s1 + len s1) c2) (arr s1) h,
     Slice (arr s1) (off s1) (len s1 + len s2) (cap s1))
  else
    (h ++ [content h s1 ++ c2],
     Slice (length h) 0 (len s1 + len s2) (len s1 + len s2)).

(** s[0:j] *)
Definition reslice (s : slice) (j : nat) : slice :=
  Slice (arr s) (off s) j (cap s).
End heap.

(** ** The reflection helpers

    A selector is a Go closure [func(i int) interface{}] that reads the
    slice it has captured: it sees the heap as it is when it is called.
    The [interface{}] values it returns are used as map keys, so their type
    [K] has a decidable equality; the [map[interface{}]struct{}] sets are
    finite sets of keys. *)

Section helpers.
Context {A K : Type} `{Countable K}.

Definition selector_t := heap A → nat → option K.

(** The loop of sliceUniq, with [n] iterations left.  [Index(i)] is a
    reference to the cell [i]; nothing is written between taking it and
    [Set], so its value is read at once. *)
Fixpoint sliceUniq_loop (selector : selector_t) (s : slice)
    (n i j : nat) (seen : gset K) (h : heap A) : option (heap A * nat) :=
  match n with
  | 0 => Some (h, j)
  | S n' =>
      item ← load h s i;
      uniqValue ← selector h i;
      if decide (uniqValue ∈ seen)
      then sliceUniq_loop selector s n' (S i) j seen h
      else
        h' ← store h s j item;
        sliceUniq_loop selector s n' (S i) (S j) ({[uniqValue]} ∪ seen) h'
  end.

(** func sliceUniq(s interface{}, selector func(int) interface{}) interface{} *)
Definition sliceUniq (selector : selector_t) (h : heap A) (s : slice)
    : option (heap A * slice) :=
  '(h', j) ← sliceUniq_loop selector s (len s) 0 0 ∅ h;
  Some (h', reslice s j).

(** The first loop of sliceKeepOnly: the keys of [s2]. *)
Fixpoint sliceKeepOnly_values (selector2 : selector_t)
    (n i : nat) (s2Values : gset K) (h : heap A) : option (gset K) :=
  match n with
  | 0 => Some s2Values
  | S n' =>
      value ← selector2 h i;
      sliceKeepOnly_values selector2 n' (S i) ({[value]} ∪ s2Values) h
  end.

(** The second loop of sliceKeepOnly. *)
Fixpoint sliceKeepOnly_loop (selector1 : selector_t) (s1 : slice)
    (s2Values : gset K) (n i j : nat) (h : heap A)
    : option (heap A * nat) :=
  match n with
  | 0 => Some (h, j)
  | S n' =>
      item ← load h s1 i;
      value ← selector1 h i;
      if decide (value ∈ s2Values)
      then
        h' ← store h s1 j item;
        sliceKeepOnly_loop selector1 s1 s2Values n' (S i) (S j) h'
      else sliceKeepOnly_loop selector1 s1 s2Values n' (S i) j h
  end.

(** func sliceKeepOnly(s1, s2 interface{}, selector1, selector2) interface{} *)
Definition sliceKeepOnly (selector1 selector2 : selector_t)
    (h : heap A) (s1 s2 : slice) : option (heap A * slice) :=
  s2Values ← sliceKeepOnly_values selector2 (len s2) 0 ∅ h;
  '(h', j) ← sliceKeepOnly_loop selector1 s1 s2Values (len s1) 0 0 h;
  Some (h', reslice s1 j).
End helpers.

Section reverse.
Context {A : Type}.

(** The loop of sliceReverse; it runs at most [len s] times, which is
    the fuel it is started with. *)
Fixpoint sliceReverse_loop (fuel : nat) (s : slice) (i j : nat)
    (h : heap A) : option (heap A) :=
  match fuel with
  | 0 => if decide (i < j) then None else Some h
  | S fuel' =>
      if decide (i < j)
      then h' ← swap h s i j; sliceReverse_loop fuel' s (S i) (pred j) h'
      else Some h
  end.

(** func sliceReverse(s interface{}); for the empty slice Go starts [j] at
    [-1] and the loop does not run, as here with [j = 0]. *)
Definition sliceReverse (h : heap A) (s : slice) : option (heap A) :=
  sliceReverse_loop (len s) s 0 (len s - 1) h.

(** sort.SliceStable of the Go library, from its documentation: it sorts
    the slice in place and keeps equal elements in their original order.
    The order is given on elements, as every [less] closure of qself
    compares the elements at the two indices. *)
Fixpoint insert_sorted (less : A → A → bool) (x : A) (l : list A)
    : list A :=
  match l with
  | [] => [x]
  | y :: l' => if less y x then y :: insert_sorted less x l'
               else x :: y :: l'
  end.

Fixpoint stable_sort (less : A → A → bool) (l : list A) : list A :=
  match l with
  | [] => []
  | x :: l' => insert_sorted less x (stable_sort less l')
  end.

Definition SliceStable (less : A → A → bool) (h : heap A) (s : slice)
    : heap A :=
  set_content h s (stable_sort less (content h s)).
End reverse.

(** The [less] closures of qself, [func(i, j int) bool { return s[i].K <
    s[j].K }], as an order on elements. *)
Definition less_by {A} (key : A → Z) : A → A → bool :=
  λ x y, bool_decide (key x < key y)%Z.

(** ** The reconcilers *)

(** The loop of flipDuplicateTweetsOnTrivialChanges at the pair
    [(i, i + 1)], with [n] pairs left. *)
Fixpoint flip_loop (tweets : slice) (n i : nat) (h : heap Tweet)
    : option (heap Tweet) :=
  match n with
  | 0 => Some h
  | S n' =>
      ti ← load h tweets i;
      tj ← load h tweets (S i);
      if decide (ID ti ≠ ID tj) then flip_loop tweets n' (S i) h
      else if decide (Text ti ≠ Text tj) then flip_loop tweets n' (S i) h
      else if decide (Entities ti ≠ Entities tj)
      then flip_loop tweets n' (S i) h
      else
        let favoriteDiff :=
          absInt (int_sub (FavoriteCount ti) (FavoriteCount tj)) in
        let retweetDiff :=
          absInt (int_sub (RetweetCount ti) (RetweetCount tj)) in
        if decide (favoriteDiff < 3 ∧ retweetDiff < 3)%Z
        then h' ← swap h tweets i (S i); flip_loop tweets n' (S i) h'
        else flip_loop tweets n' (S i) h
  end.

(** func flipDuplicateTweetsOnTrivialChanges(tweets []*Tweet) *)
Definition flipDuplicateTweetsOnTrivialChanges (h : heap Tweet)
    (tweets : slice) : option (heap Tweet) :=
  flip_loop tweets (len tweets - 1) 0 h.

(** func mergeReadings(apiReadings, existingReadings []*Reading) []*Reading *)
Definition mergeReadings (h : heap Reading)
    (apiReadings existingReadings : slice) : option (heap Reading * slice) :=
  '(h1, existingReadings') ←
    sliceKeepOnly
      (λ h i, ReviewID <$> load h existingReadings i)
      (λ h i, ReviewID <$> load h apiReadings i)
      h existingReadings apiReadings;
  let '(h2, s) := append h1 apiReadings existingReadings' in
  let h3 := SliceStable (less_by ReviewID) h2 s in
  '(h4, sMerged) ← sliceUniq (λ h i, ReviewID <$> load h s i) h3 s;
  h5 ← sliceReverse h4 sMerged;
  Some (h5, sMerged).

(** func mergeTweets(apiTweets, existingTweets []*Tweet) []*Tweet *)
Definition mergeTweets (h : heap Tweet)
    (apiTweets existingTweets : slice) : option (heap Tweet * slice) :=
  let '(h1, s) := append h apiTweets existingTweets in
  let h2 := SliceStable (less_by ID) h1 s in
  h3 ← flipDuplicateTweetsOnTrivialChanges h2 s;
  '(h4, sMerged) ← sliceUniq (λ h i, ID <$> load h s i) h3 s;
  h5 ← sliceReverse h4 sMerged;
  Some (h5, sMerged).

(** ** Reference functions on sequences

    What the in-place loops compute, as functions on the sequence of
    elements a slice denotes. *)

Section reference.
Context {A K : Type} `{Countable K}.
Variable key : A → K.

(** The elements whose key was not met before, [seen] being the keys met
    so far. *)
Fixpoint uniq_from (seen : gset K) (l : list A) : list A :=
  match l with
  | [] => []
  | x :: l' =>
      if decide (key x ∈ seen) then uniq_from seen l'
      else x :: uniq_from ({[key x]} ∪ seen) l'
  end.

(** The specification's reading of uniqueByKey: the element at index [i]
    survives when no earlier index holds the same key. *)
Definition first_occurrences (l : list A) : list A :=
  omap (λ i, x ← l !! i;
             if decide (key x ∈ key <$> take i l) then None else Some x)
       (seq 0 (length l)).

(** The selector that reads the key of the element [i] of [s]. *)
Definition selector_of (s : slice) : heap A → nat → option K :=
  λ h i, key <$> load h s i.
End reference.

(** The counter difference as flipDuplicateTweetsOnTrivialChanges computes
    it, on Go ints. *)
Definition delta (x y : Z) : Z := absInt (int_sub x y).

(** A counter that is a count: non-negative and representable. *)
Definition is_count (z : Z) : Prop := (0 ≤ z ≤ int_max)%Z.

(** Two observations differ by noise only: same text, deeply equal
    entities, and both counter differences below 3. *)
Definition noise_only (ti tj : Tweet) : Prop :=
  Text ti = Text tj ∧ Entities ti = Entities tj ∧
  (delta (FavoriteCount ti) (FavoriteCount tj) < 3)%Z ∧
  (delta (RetweetCount ti) (RetweetCount tj) < 3)%Z.

(** The test under which the pass swaps an adjacent pair. *)
Definition trivial_change (ti tj : Tweet) : Prop :=
  ID ti = ID tj ∧ noise_only ti tj.

#[global] Instance trivial_change_dec ti tj : Decision (trivial_change ti tj).
Proof. unfold trivial_change, noise_only. apply _. Defined.

(** The same test with the differences taken in the integers. *)
Definition noise_only_exact (ti tj : Tweet) : Prop :=
  Text ti = Text tj ∧ Entities ti = Entities tj ∧
  (Z.abs (FavoriteCount ti - FavoriteCount tj) < 3)%Z ∧
  (Z.abs (RetweetCount ti - RetweetCount tj) < 3)%Z.

(** Both counters of a tweet are counts. *)
Definition counts (t : Tweet) : Prop :=
  is_count (FavoriteCount t) ∧ is_count (RetweetCount t).

(** The pass on a sequence whose first element [x] is the left element of
    the pair under inspection. *)
Fixpoint flip_from (x : Tweet) (l : list Tweet) : list Tweet :=
  match l with
  | [] => [x]
  | y :: l' =>
      if decide (trivial_change x y) then y :: flip_from x l'
      else x :: flip_from y l'
  end.

Definition flip_pairs (l : list Tweet) : list Tweet :=
  match l with
  | [] => []
  | x :: l' => flip_from x l'
  end.

(** The windows of two slices share no cell: the cells of [s1] up to its
    capacity, which append may write, and the elements of [s2]. *)
Definition separate (s1 s2 : slice) : Prop :=
  arr s1 ≠ arr s2 ∨ off s1 + cap s1 ≤ off s2 ∨ off s2 + len s2 ≤ off s1.

(** Strictly descending and ascending by key. *)
Definition descending {A} (key : A → Z) (l : list A) : Prop :=
  StronglySorted (λ x y, (key y < key x)%Z) l.

Definition ascending {A} (key : A → Z) (l : list A) : Prop :=
  StronglySorted (λ x y, (key x ≤ key y)%Z) l.

(** The windows of two slices share no cell, lengths only. *)
Definition apart (s1 s2 : slice) : Prop :=
  arr s1 ≠ arr s2 ∨ off s1 + len s1 ≤ off s2 ∨ off s2 + len s2 ≤ off s1.

(** What the pass does to the elements of one identifier, when the
    sequence is sorted and holds at most two of them. *)
Definition flip_group (g : list Tweet) : list Tweet :=
  match g with
  | [a; b] => if decide (trivial_change a b) then [b; a] else [a; b]
  | _ => g
  end.

(** The sequence mergeTweets returns, from the sequences it is given. *)
Definition merged_tweets (fresh stored : list Tweet) : list Tweet :=
  reverse (uniq_from ID ∅
    (flip_pairs
      (stable_sort (less_by ID) (fresh ++ stored)))).

(** The stored readings sliceKeepOnly keeps. *)
Definition kept_readings (fresh stored : list Reading) : list Reading :=
  filter (λ x, ReviewID x ∈ ReviewID <$> fresh) stored.

(** The sequence mergeReadings returns, from the fresh sequence as it is
    after sliceKeepOnly and the readings kept. *)
Definition merged_readings (fresh kept : list Reading) : list Reading :=
  reverse (uniq_from ReviewID ∅
    (stable_sort (less_by ReviewID)
       (fresh ++ kept))).

(** ** Sample batches

    Batches after the project's tests (TestMergeTweets,
    OldPreferredOnTrivialChanges, and TestMergeReadings, RemoveOld), each in
    a backing array of its own. *)

Definition tweet (id : Z) (text : string) (fav rt : Z) : Tweet :=
  {| CreatedAt := 0; Entities := None; FavoriteCount := fav; ID := id;
     Reply := None; Retweet := None; RetweetCount := rt; Text := text |}.

Definition reading (rid : Z) (review : string) : Reading :=
  {| Authors := None; BookID := 0; ISBN := ""; ISBN13 := ""; NumPages := 0;
     PublishedYear := 0; ReadAt := 0; Rating := 0; Review := review;
     ReviewID := rid; Title := "" |}.

Definition sample_tweets : heap Tweet :=
  [ [tweet 125 "s1 125" 0 0; tweet 124 "sX 124" 4 4];
    [tweet 124 "sX 124" 2 2; tweet 123 "s2 123" 0 0] ].

Definition sample_readings : heap Reading :=
  [ [reading 125 "new"; reading 123 "s1 123"];
    [reading 125 "old"; reading 124 "s2 124"; reading 123 "s2 123"] ].

Definition sample_fresh : slice := Slice 0 0 2 2.
Definition sample_stored : slice := Slice 1 0 2 2.
Definition sample_stored_readings : slice := Slice 1 0 3 3.

(** The output of mergeTweets on the sample batches: the heap it leaves
    and the slice it returns. *)
Definition sample_merged : option (heap Tweet * slice) :=
  Eval vm_compute in mergeTweets sample_tweets sample_fresh sample_stored.

Definition sample_merged_heap : heap Tweet :=
  match sample_merged with Some (h, _) => h | None => [] end.

Definition sample_merged_slice : slice :=
  match sample_merged with Some (_, r) => r | None => nil_slice end.

(** ** Earlier revisions of the reconcilers

    mergeTweets before the pass over trivial changes was added, and
    mergeReadings before the stored readings missing from the API were
    dropped.  sliceUniq and sliceReverse were what they are now. *)

Module Earlier.

(** func mergeTweets(s1, s2 []*Tweet) []*Tweet *)
Definition mergeTweets (h : heap Tweet) (s1 s2 : slice)
    : option (heap Tweet * slice) :=
  let '(h1, s) := append h s1 s2 in
  let h2 := SliceStable (less_by ID) h1 s in
  '(h3, sMerged) ← sliceUniq (λ h i, ID <$> load h s i) h2 s;
  h4 ← sliceReverse h3 sMerged;
  Some (h4, sMerged).

(** func mergeReadings(s1, s2 []*Reading) []*Reading *)
Definition mergeReadings (h : heap Reading) (s1 s2 : slice)
    : option (heap Reading * slice) :=
  let '(h1, s) := append h s1 s2 in
  let h2 := SliceStable (less_by ReviewID) h1 s in
  '(h3, sMerged) ← sliceUniq (λ h i, ReviewID <$> load h s i) h2 s;
  h4 ← sliceReverse h3 sMerged;
  Some (h4, sMerged).

End Earlier.

(** ** The conversions from the API types

    The Goodreads API types are qself's own.  Of the go-twitter types,
    the fields that tweetFromAPITweet and syncTwitter read are kept, with
    the types go-twitter declares for them; of the retweeted status, a
    [*twitter.Tweet], these are its identifier and its user.  The slices of
    the API types are only measured and ranged over, which does not tell a
    nil slice from an empty one: they are lists. *)

Record APIBookAuthor := {
  APIBookAuthor_ID : Z;
  APIBookAuthor_Name : string
}.

Record APIBook := {
  APIBook_Authors : list (option APIBookAuthor);
  APIBook_ID : Z;
  APIBook_ISBN : string;
  APIBook_ISBN13 : string;
  APIBook_NumPages : Z;
  APIBook_PublishedYear : Z;
  APIBook_Title : string
}.

Record APIReview := {
  APIReview_Body : string;
  APIReview_Book : option APIBook;
  APIReview_ID : Z;
  APIReview_Rating : Z;
  APIReview_ReadAt : string
}.

Module twitter.

Record MediaEntity := {
  Media_ID : Z;
  Media_Type : string;
  MediaURLHttps : string
}.

Record URLEntity := {
  DisplayURL : string;
  ExpandedURL : string;
  URL : string
}.

Record MentionEntity := {
  ScreenName : string;
  Mention_ID : Z
}.

Record Entities := {
  Media : list MediaEntity;
  Urls : list URLEntity;
  UserMentions : list MentionEntity
}.

Record ExtendedEntity := {
  Extended_Media : list MediaEntity
}.

Record User := {
  User_ScreenName : string;
  User_ID : Z
}.

Record Status := {
  Status_ID : Z;
  Status_User : option User
}.

Record Tweet := {
  CreatedAt : string;
  Tweet_Entities : option Entities;
  ExtendedEntities : option ExtendedEntity;
  FavoriteCount : Z;
  FullText : string;
  ID : Z;
  InReplyToScreenName : string;
  InReplyToStatusID : Z;
  InReplyToUserID : Z;
  RetweetCount : Z;
  RetweetedStatus : option Status
}.

End twitter.

(** The library functions the conversions call: html.UnescapeString,
    strings.TrimSpace, ReplaceAllString of the two compiled expressions
    htmlLineBreakRE and htmlLinkRE, time.Parse (layout, value) and the
    CreatedAtTime method of a twitter.Tweet, with [None] for a returned
    error, and the zero time.Time. *)
Class Lib := {
  html_UnescapeString : string → string;
  strings_TrimSpace : string → string;
  htmlLineBreakRE_ReplaceAllString : string → string → string;
  htmlLinkRE_ReplaceAllString : string → string → string;
  time_Parse : string → string → option Z;
  CreatedAtTime : twitter.Tweet → option Z;
  time_zero : Z
}.

(** append(s, x) on a slice kept in a variable or a field: a nil slice
    becomes a slice of one element. *)
Definition push {A} (s : option (list A)) (x : A) : option (list A) :=
  Some (default [] s ++ [x]).

(** if entities == nil { entities = &TweetEntities{} } *)
Definition allocated (entities : option TweetEntities) : TweetEntities :=
  default {| Medias := None; URLs := None; UserMentions := None |} entities.

Definition add_media (entities : TweetEntities) (media : twitter.MediaEntity)
    : TweetEntities :=
  {| Medias := push (Medias entities)
       (Some {| MediaID := twitter.Media_ID media;
                MediaType := twitter.Media_Type media;
                MediaURL := twitter.MediaURLHttps media |});
     URLs := URLs entities;
     UserMentions := UserMentions entities |}.

Definition add_url (entities : TweetEntities) (url : twitter.URLEntity)
    : TweetEntities :=
  {| Medias := Medias entities;
     URLs := push (URLs entities)
       (Some {| DisplayURL := twitter.DisplayURL url;
                ExpandedURL := twitter.ExpandedURL url;
                URL := twitter.URL url |});
     UserMentions := UserMentions entities |}.

Definition add_user_mention (entities : TweetEntities)
    (userMention : twitter.MentionEntity) : TweetEntities :=
  {| Medias := Medias entities;
     URLs := URLs entities;
     UserMentions := push (UserMentions entities)
       (Some {| MentionUser := twitter.ScreenName userMention;
                MentionUserID := twitter.Mention_ID userMention |}) |}.

Definition goodreadsTimeFormat : string := "Mon Jan 2 15:04:05 -0700 2006".

(** The loop of readingFromAPIReview over the authors of the book;
    [None] is the nil pointer dereference at a nil author. *)
Fixpoint authors_loop (authors : option (list (option ReadingAuthor)))
    (l : list (option APIBookAuthor))
    : option (option (list (option ReadingAuthor))) :=
  match l with
  | [] => Some authors
  | None :: _ => None
  | Some author :: l =>
      authors_loop
        (push authors (Some {| AuthorID := APIBookAuthor_ID author;
                               AuthorName := APIBookAuthor_Name author |}))
        l
  end.

Section conversions.
Context `{Lib}.

Definition sanitizeGoodreadsReview (review : string) : string :=
  let review := htmlLineBreakRE_ReplaceAllString review
                  (String (Ascii.ascii_of_nat 10) EmptyString) in
  let review := htmlLinkRE_ReplaceAllString review "$1" in
  let review := html_UnescapeString review in
  strings_TrimSpace review.

Definition sanitizeTweetText (text : string) : string :=
  html_UnescapeString text.

(** [None] is a panic: the one the code raises when the time of reading
    does not parse, or a nil pointer dereference (a review without a
    book, a nil author).  The logged complaint about a missing time of
    reading is no part of the result. *)
Definition readingFromAPIReview (review : APIReview) : option Reading :=
  book ← APIReview_Book review;
  authors ← authors_loop None (APIBook_Authors book);
  readAt ← (if decide (APIReview_ReadAt review ≠ "")
            then time_Parse goodreadsTimeFormat (APIReview_ReadAt review)
            else Some time_zero);
  Some {| Authors := authors;
          BookID := APIBook_ID book;
          ISBN := APIBook_ISBN book;
          ISBN13 := APIBook_ISBN13 book;
          NumPages := APIBook_NumPages book;
          PublishedYear := APIBook_PublishedYear book;
          ReadAt := readAt;
          Rating := APIReview_Rating review;
          Review := sanitizeGoodreadsReview (APIReview_Body review);
          ReviewID := APIReview_ID review;
          Title := APIBook_Title book |}.

(** [None] is a panic: the one the code raises when the time of creation
    does not parse, or a nil pointer dereference (a tweet without
    entities, a retweeted status without user). *)
Definition tweetFromAPITweet (tweet : twitter.Tweet) : option Tweet :=
  createdAt ← CreatedAtTime tweet;
  apiEntities ← twitter.Tweet_Entities tweet;
  let entities : option TweetEntities := None in
  let entities :=
    let plain :=
      if decide (0 < length (twitter.Media apiEntities))
      then Some (foldl add_media (allocated entities)
                   (twitter.Media apiEntities))
      else entities in
    match twitter.ExtendedEntities tweet with
    | Some extended =>
        if decide (0 < length (twitter.Extended_Media extended))
        then Some (foldl add_media (allocated entities)
                     (twitter.Extended_Media extended))
        else plain
    | None => plain
    end in
  let entities :=
    if decide (0 < length (twitter.Urls apiEntities))
    then Some (foldl add_url (allocated entities)
                 (twitter.Urls apiEntities))
    else entities in
  let entities :=
    if decide (0 < length (twitter.UserMentions apiEntities))
    then Some (foldl add_user_mention (allocated entities)
                 (twitter.UserMentions apiEntities))
    else entities in
  let reply :=
    if decide (twitter.InReplyToStatusID tweet ≠ 0%Z)
    then Some {| ReplyStatusID := twitter.InReplyToStatusID tweet;
                 ReplyUser := twitter.InReplyToScreenName tweet;
                 ReplyUserID := twitter.InReplyToUserID tweet |}
    else None in
  retweet ←
    match twitter.RetweetedStatus tweet with
    | Some status =>
        user ← twitter.Status_User status;
        Some (Some {| RetweetStatusID := twitter.Status_ID status;
                      RetweetUser := twitter.User_ScreenName user;
                      RetweetUserID := twitter.User_ID user |})
    | None => Some None
    end;
  Some {| CreatedAt := createdAt;
          Entities := entities;
          FavoriteCount := twitter.FavoriteCount tweet;
          ID := twitter.ID tweet;
          Reply := reply;
          Retweet := retweet;
          RetweetCount := twitter.RetweetCount tweet;
          Text := sanitizeTweetText (twitter.FullText tweet) |}.
End conversions.

(** ** The pagination loop of syncTwitter

    [UserTimeline call maxID] is the page that the call number [call] of
    client.Timelines.UserTimeline returns for the cursor [maxID], [None]
    when it returns an error.  The accumulated slice is local to
    syncTwitter and only appended to: it is a list. *)

Inductive outcome (A : Type) : Type :=
| Value (a : A)
| Err
| Panic.
Arguments Value {A} a.
Arguments Err {A}.
Arguments Panic {A}.

Section timeline.
Context `{Lib} (UserTimeline : nat → Z → option (list twitter.Tweet)).

(** for _, apiTweet := range apiTweets { ... }, from the values of tweets
    and processedAnyTweets to their values after the loop; [None] is a
    panic of tweetFromAPITweet. *)
Fixpoint timeline_page (maxTweetID : Z) (apiTweets : list twitter.Tweet)
    (tweets : list Tweet) (processedAnyTweets : bool)
    : option (list Tweet * bool) :=
  match apiTweets with
  | [] => Some (tweets, processedAnyTweets)
  | apiTweet :: apiTweets =>
      if decide (maxTweetID ≠ 0 ∧ maxTweetID ≤ twitter.ID apiTweet)%Z
      then timeline_page maxTweetID apiTweets tweets processedAnyTweets
      else
        tweet ← tweetFromAPITweet apiTweet;
        timeline_page maxTweetID apiTweets (tweets ++ [tweet]) true
  end.

(** The for loop that pages through the timeline, from the values of
    tweets and maxTweetID at the head of an iteration; [Value] holds the
    tweets at the break.  The result is [None] when the loop is still
    running after [fuel] iterations. *)
Fixpoint timeline_pages (fuel call : nat) (tweets : list Tweet)
    (maxTweetID : Z) : option (outcome (list Tweet)) :=
  match fuel with
  | 0 => None
  | S fuel =>
      match UserTimeline call maxTweetID with
      | None => Some Err
      | Some apiTweets =>
          match timeline_page maxTweetID apiTweets tweets false with
          | None => Some Panic
          | Some (tweets, processedAnyTweets) =>
              if processedAnyTweets then
                match apiTweets !! (length apiTweets - 1) with
                | Some last =>
                    timeline_pages fuel (S call) tweets (twitter.ID last)
                | None => Some Panic
                end
              else Some (Value tweets)
          end
      end
  end.
End timeline.

(** A slice field as the conversions leave it: nil, or holding at least
    one element and no nil pointer. *)
Definition filled {A} (s : option (list (option A))) : Prop :=
  match s with
  | None => True
  | Some l => l ≠ [] ∧ None ∉ l
  end.

(** The media tweetFromAPITweet takes: the extended ones when there are
    any. *)
Definition media_of (tweet : twitter.Tweet) (apiEntities : twitter.Entities)
    : list twitter.MediaEntity :=
  match twitter.ExtendedEntities tweet with
  | Some extended =>
      match twitter.Extended_Media extended with
      | [] => twitter.Media apiEntities
      | l => l
      end
  | None => twitter.Media apiEntities
  end.

(** Sample library and timeline: every time of creation parses, strings
    are left as they are, and every page holds the same two tweets. *)
#[local] Instance sample_lib : Lib := {|
  html_UnescapeString := id;
  strings_TrimSpace := id;
  htmlLineBreakRE_ReplaceAllString := λ src _, src;
  htmlLinkRE_ReplaceAllString := λ src _, src;
  time_Parse := λ _ _, Some 0%Z;
  CreatedAtTime := λ _, Some 0%Z;
  time_zero := 0%Z
|}.

Definition api_tweet (id : Z) (text : string) : twitter.Tweet :=
  {| twitter.CreatedAt := "";
     twitter.Tweet_Entities :=
       Some {| twitter.Media := []; twitter.Urls := [];
               twitter.UserMentions :=
                 [ {| twitter.ScreenName := "brandur";
                      twitter.Mention_ID := 1 |} ] |};
     twitter.ExtendedEntities := None;
     twitter.FavoriteCount := 0;
     twitter.FullText := text;
     twitter.ID := id;
     twitter.InReplyToScreenName := "";
     twitter.InReplyToStatusID := 0;
     twitter.InReplyToUserID := 0;
     twitter.RetweetCount := 0;
     twitter.RetweetedStatus := None |}.

Definition sample_timeline (call : nat) (maxID : Z)
    : option (list twitter.Tweet) :=
  Some [api_tweet 5 "e"; api_tweet 3 "c"].

Definition sample_review : APIReview :=
  {| APIReview_Body := "fine";
     APIReview_Book :=
       Some {| APIBook_Authors :=
                 [Some {| APIBookAuthor_ID := 7;
                          APIBookAuthor_Name := "A" |}];
               APIBook_ID := 11; APIBook_ISBN := ""; APIBook_ISBN13 := "";
               APIBook_NumPages := 100; APIBook_PublishedYear := 2000;
               APIBook_Title := "T" |};
     APIReview_ID := 125;
     APIReview_Rating := 4;
     APIReview_ReadAt := "" |}.

Definition sample_reading : Reading :=
  Eval vm_compute in
    default (reading 0 "") (readingFromAPIReview sample_review).

Definition sample_converted : Tweet :=
  Eval vm_compute in
    default (tweet 0 "" 0 0) (tweetFromAPITweet (api_tweet 5 "e")).

Definition sample_collected : list Tweet :=
  Eval vm_compute in
    match timeline_pages sample_timeline 2 0 [] 0 with
    | Some (Value tweets) => tweets
    | _ => []
    end.

(** * Properties *)

(** ** Go ints *)

Lemma wrap_id z : (int_min ≤ z ≤ int_max)%Z → wrap z = z.
Proof.
  unfold wrap, int_min, int_max. intros Hz.
  rewrite Z.mod_small; lia.
Qed.

Lemma delta_refl x : delta x x = 0%Z.
Proof.
  unfold delta, int_sub. rewrite Z.sub_diag.
  change (wrap 0) with 0%Z. reflexivity.
Qed.

(** Without overflow the difference is the mathematical one; all counts
    are in this case. *)
Lemma delta_abs x y :
  (int_min < x - y ≤ int_max)%Z → delta x y = Z.abs (x - y).
Proof.
  intros Hxy. unfold delta, int_sub, absInt, int_neg.
  rewrite (wrap_id (x - y)) by lia.
  case_decide.
  - rewrite wrap_id; unfold int_min, int_max in *; lia.
  - lia.
Qed.

Lemma delta_count x y : is_count x → is_count y → delta x y = Z.abs (x - y).
Proof.
  unfold is_count. intros Hx Hy. apply delta_abs.
  unfold int_min, int_max in *. lia.
Qed.

(** ** The heap *)

Section heap_facts.
Context {A : Type}.
Implicit Types (h : heap A) (s : slice) (a c : list A).

Lemma splice_length o c a :
  o + length c ≤ length a → length (splice o c a) = length a.
Proof.
  intros Hle. unfold splice.
  rewrite !length_app, length_take, length_drop. lia.
Qed.

Lemma splice_lookup o c a q :
  o + length c ≤ length a →
  splice o c a !! q =
    if decide (o ≤ q < o + length c) then c !! (q - o) else a !! q.
Proof.
  intros Hle. unfold splice.
  assert (length (take o a) = o) as Hto by (rewrite length_take; lia).
  destruct (decide (q < o)) as [Hq|Hq].
  - rewrite lookup_app_l by lia. rewrite lookup_take_lt by lia.
    case_decide; [lia|done].
  - rewrite lookup_app_r by lia. rewrite Hto.
    destruct (decide (q - o < length c)) as [Hc|Hc].
    + rewrite lookup_app_l by lia. case_decide; [done|lia].
    + rewrite lookup_app_r by lia. rewrite lookup_drop.
      case_decide; [lia|]. f_equal. lia.
Qed.

Lemma splice_insert o c a i v :
  o + length c ≤ length a → i < length c →
  <[o + i := v]> (splice o c a) = splice o (<[i := v]> c) a.
Proof.
  intros Hle Hi. unfold splice.
  assert (length (take o a) = o) as Hto by (rewrite length_take; lia).
  rewrite <-Hto at 1. rewrite insert_app_r, insert_app_l by done.
  by rewrite length_insert.
Qed.

Lemma splice_id o n a :
  splice o (take n (drop o a)) a = a.
Proof.
  unfold splice.
  transitivity (take o a ++ take n (drop o a) ++ drop n (drop o a)).
  - do 2 f_equal. rewrite drop_drop, length_take, length_drop.
    destruct (decide (n ≤ length a - o)).
    + f_equal. lia.
    + rewrite !drop_ge; [done|lia..].
  - by rewrite !take_drop.
Qed.

Lemma backing_alter f h s :
  backing (alter f (arr s) h) s =
    match h !! arr s with Some a => f a | None => [] end.
Proof.
  unfold backing. rewrite list_lookup_alter_eq. by destruct (h !! arr s).
Qed.

Lemma backing_alter_ne f h s s' :
  arr s ≠ arr s' → backing (alter f (arr s) h) s' = backing h s'.
Proof. intros Hne. unfold backing. by rewrite list_lookup_alter_ne. Qed.

Lemma backing_set_content h s c :
  wf h s → length c ≤ len s →
  backing (set_content h s c) s = splice (off s) c (backing h s).
Proof.
  intros Hwf Hc. unfold set_content. rewrite backing_alter.
  unfold backing. destruct (h !! arr s) eqn:Ha; simpl; [done|].
  destruct Hwf as [Hlen Hcap]. unfold backing in Hcap.
  rewrite Ha in Hcap. simpl in Hcap.
  destruct c; simpl in *; [|lia].
  unfold splice. by rewrite take_nil, drop_nil.
Qed.

Lemma content_length h s : wf h s → length (content h s) = len s.
Proof.
  intros [Hlen Hcap]. unfold content.
  rewrite length_take, length_drop. lia.
Qed.

Lemma content_lookup h s i :
  content h s !! i =
    if decide (i < len s) then backing h s !! (off s + i) else None.
Proof. unfold content. by rewrite lookup_take, lookup_drop. Qed.

Lemma load_content h s i : load h s i = content h s !! i.
Proof. unfold load. by rewrite content_lookup. Qed.

Lemma set_content_id h s : set_content h s (content h s) = h.
Proof.
  unfold set_content, content.
  transitivity (alter id (arr s) h); [|by apply list_alter_id].
  apply list_alter_ext; [|done]. intros a Ha.
  unfold backing. rewrite Ha. simpl. apply splice_id.
Qed.

Lemma content_set_content h s c :
  wf h s → length c = len s → content (set_content h s c) s = c.
Proof.
  intros Hwf Hc. unfold content.
  rewrite backing_set_content by (done || lia).
  destruct Hwf as [Hlen Hcap]. apply list_eq. intros q.
  rewrite lookup_take, lookup_drop, splice_lookup by lia.
  repeat case_decide; try lia.
  - f_equal. lia.
  - symmetry. apply lookup_ge_None. lia.
Qed.

Lemma load_set_content h s c i :
  wf h s → length c = len s → load (set_content h s c) s i = c !! i.
Proof. intros. by rewrite load_content, content_set_content. Qed.

Lemma store_set_content h s c i v :
  wf h s → length c = len s → i < len s →
  store (set_content h s c) s i v = Some (set_content h s (<[i := v]> c)).
Proof.
  intros [Hlen Hcap] Hc Hi. unfold store, set_content.
  rewrite decide_True by done. f_equal.
  rewrite list_alter_alter_eq. apply list_alter_ext; [|done].
  intros a Ha. unfold backing in Hcap. rewrite Ha in Hcap.
  simpl in *. apply splice_insert; lia.
Qed.

Lemma swap_set_content h s c i j x y :
  wf h s → length c = len s → c !! i = Some x → c !! j = Some y →
  swap (set_content h s c) s i j =
    Some (set_content h s (<[j := x]> (<[i := y]> c))).
Proof.
  intros Hwf Hc Hx Hy. unfold swap.
  apply lookup_lt_Some in Hx as ?. apply lookup_lt_Some in Hy as ?.
  rewrite !load_set_content, Hx, Hy by done. simpl.
  rewrite store_set_content by (done || lia). simpl.
  rewrite store_set_content; rewrite ?length_insert; done || lia.
Qed.

(** Lengths of backing arrays, hence well-formedness of every slice, are
    kept by writes inside a window. *)
Lemma set_content_backing_length h s c s' :
  wf h s → length c ≤ len s →
  length (backing (set_content h s c) s') = length (backing h s').
Proof.
  intros Hwf Hc. destruct (decide (arr s = arr s')) as [He|Hne].
  - unfold backing at 1 2. rewrite <-He.
    fold (backing (set_content h s c) s). fold (backing h s).
    rewrite backing_set_content by done.
    destruct Hwf. apply splice_length. lia.
  - unfold set_content. by rewrite backing_alter_ne.
Qed.

Lemma wf_set_content h s c s' :
  wf h s → length c ≤ len s → wf h s' → wf (set_content h s c) s'.
Proof.
  intros Hwf Hc [Hlen Hcap]. split; [done|].
  by rewrite set_content_backing_length.
Qed.

Lemma wf_reslice h s j : wf h s → j ≤ len s → wf h (reslice s j).
Proof. intros [Hlen Hcap] Hj. split; simpl; [lia|done]. Qed.

Lemma content_reslice h s j :
  j ≤ len s → content h (reslice s j) = take j (content h s).
Proof.
  intros Hj. unfold content, reslice, backing. simpl.
  rewrite take_take. f_equal. lia.
Qed.

(** Writing inside the window of [s] leaves a slice with a disjoint
    window alone. *)
Lemma content_set_content_frame h s c s' :
  wf h s → length c ≤ len s →
  arr s ≠ arr s' ∨ off s + length c ≤ off s' ∨ off s' + len s' ≤ off s →
  content (set_content h s c) s' = content h s'.
Proof.
  intros Hwf Hc Hsep. destruct (decide (arr s = arr s')) as [He|Hne].
  - destruct Hsep as [?|Hsep]; [done|].
    apply list_eq. intros q. rewrite !content_lookup.
    case_decide; [|done].
    unfold backing at 1 2. rewrite <-He.
    fold (backing (set_content h s c) s). fold (backing h s).
    rewrite backing_set_content by done.
    destruct Hwf. rewrite splice_lookup by lia.
    case_decide; [lia|done].
  - unfold content, set_content. by rewrite backing_alter_ne.
Qed.
End heap_facts.

(** ** The reference functions *)

Section uniq_facts.
Context {A K : Type} `{Countable K}.
Variable key : A → K.
Implicit Types (l : list A) (seen : gset K).

Lemma uniq_from_elem_of seen l x :
  x ∈ uniq_from key seen l → x ∈ l ∧ key x ∉ seen.
Proof.
  revert seen. induction l as [|y l IH]; intros seen; simpl.
  - by intros ?%elem_of_nil.
  - case_decide as Hy.
    + intros Hx. apply IH in Hx as [??]. split; [by right|done].
    + intros [->|Hx]%elem_of_cons.
      * split; [by left|done].
      * apply IH in Hx as [? Hx]. split; [by right|]. set_solver.
Qed.

Lemma uniq_from_sublist seen l : uniq_from key seen l `sublist_of` l.
Proof.
  revert seen. induction l as [|y l IH]; intros seen; simpl; [done|].
  case_decide; [apply sublist_cons|apply sublist_skip]; apply IH.
Qed.

Lemma uniq_from_NoDup seen l : NoDup (key <$> uniq_from key seen l).
Proof.
  revert seen. induction l as [|y l IH]; intros seen; simpl.
  - constructor.
  - case_decide; [apply IH|]. rewrite fmap_cons. constructor; [|apply IH].
    intros (z & Hz & [_ Hin]%uniq_from_elem_of)%list_elem_of_fmap.
    set_solver.
Qed.

Lemma uniq_from_keys seen l x :
  x ∈ l → key x ∈ seen ∨ key x ∈ key <$> uniq_from key seen l.
Proof.
  revert seen. induction l as [|y l IH]; intros seen; simpl.
  - by intros ?%elem_of_nil.
  - intros [->|Hx]%elem_of_cons.
    + case_decide; [by left|right]. rewrite fmap_cons. by left.
    + case_decide; [by apply IH|].
      destruct (IH ({[key y]} ∪ seen) Hx) as [Hin|Hin].
      * apply elem_of_union in Hin as [->%elem_of_singleton|?];
          [right|by left]. rewrite fmap_cons. by left.
      * right. rewrite fmap_cons. by right.
Qed.

(** For every key, the survivor is the first element that carries it. *)
Lemma uniq_from_filter seen l k :
  filter (λ y, key y = k) (uniq_from key seen l) =
    if decide (k ∈ seen) then [] else take 1 (filter (λ y, key y = k) l).
Proof.
  revert seen. induction l as [|x l IH]; intros seen; simpl.
  - by case_decide.
  - destruct (decide (key x ∈ seen)) as [Hx|Hx].
    + rewrite IH. case_decide as Hk; [done|].
      rewrite filter_cons_False; [done|]. congruence.
    + destruct (decide (key x = k)) as [Hxk|Hxk].
      * rewrite !filter_cons_True by done. rewrite IH. subst k.
        rewrite decide_True by set_solver.
        by rewrite decide_False.
      * rewrite !filter_cons_False by done. rewrite IH.
        repeat case_decide; try done; exfalso; set_solver.
Qed.

Lemma uniq_from_id seen l :
  NoDup (key <$> l) → (∀ x, x ∈ l → key x ∉ seen) →
  uniq_from key seen l = l.
Proof.
  revert seen. induction l as [|x l IH]; intros seen Hnd Hseen; simpl.
  - done.
  - rewrite fmap_cons in Hnd. apply NoDup_cons in Hnd as [Hx Hnd].
    rewrite decide_False by (apply Hseen; by left). f_equal.
    apply IH; [done|]. intros y Hy.
    intros [Hyx%elem_of_singleton|?]%elem_of_union.
    + apply Hx. rewrite <-Hyx. by apply list_elem_of_fmap_2.
    + by apply (Hseen y); [right|].
Qed.

Lemma uniq_from_first_occurrences_aux seen (P l : list A) :
  (∀ k, k ∈ seen ↔ k ∈ key <$> P) →
  uniq_from key seen l =
    omap (λ i, x ← (P ++ l) !! i;
               if decide (key x ∈ key <$> take i (P ++ l))
               then None else Some x)
         (seq (length P) (length l)).
Proof.
  revert seen P. induction l as [|x l IH]; intros seen P Hseen; simpl.
  - done.
  - rewrite list_lookup_middle by done. simpl.
    rewrite take_app_length.
    assert (P ++ x :: l = (P ++ [x]) ++ l) as Heq
      by (by rewrite <-app_assoc).
    assert (S (length P) = length (P ++ [x])) as Hlen
      by (rewrite length_app; simpl; lia).
    destruct (decide (key x ∈ seen)) as [Hx|Hx].
    + rewrite decide_True by (by apply Hseen).
      rewrite Heq, Hlen. apply IH. intros k.
      rewrite fmap_app, elem_of_app, <-Hseen. simpl.
      rewrite list_elem_of_singleton. naive_solver.
    + rewrite decide_False by (by rewrite <-Hseen).
      f_equal. rewrite Heq, Hlen. apply IH. intros k.
      rewrite fmap_app, elem_of_app, <-Hseen. simpl.
      rewrite list_elem_of_singleton. set_solver.
Qed.

Lemma uniq_from_first_occurrences l :
  uniq_from key ∅ l = first_occurrences key l.
Proof.
  unfold first_occurrences.
  apply (uniq_from_first_occurrences_aux ∅ [] l).
  intros k. simpl. rewrite elem_of_nil. set_solver.
Qed.

Lemma filter_key_not_elem_of l k :
  k ∉ key <$> l → filter (λ y, key y = k) l = [].
Proof.
  intros Hk. induction l as [|y l IH]; [done|].
  rewrite fmap_cons in Hk. apply not_elem_of_cons in Hk as [??].
  rewrite filter_cons_False by done. by apply IH.
Qed.

Lemma filter_key_NoDup l x :
  NoDup (key <$> l) → x ∈ l → filter (λ y, key y = key x) l = [x].
Proof.
  induction l as [|y l IH]; intros Hnd Hx.
  - by apply elem_of_nil in Hx.
  - rewrite fmap_cons in Hnd. apply NoDup_cons in Hnd as [Hy Hnd].
    apply elem_of_cons in Hx as [->|Hx].
    + rewrite filter_cons_True by done. f_equal.
      by apply filter_key_not_elem_of.
    + rewrite filter_cons_False; [by apply IH|].
      intros Hyx. apply Hy. rewrite Hyx. by apply list_elem_of_fmap_2.
Qed.
End uniq_facts.

Lemma insert_sorted_length {A} (less : A → A → bool) x l :
  length (insert_sorted less x l) = S (length l).
Proof.
  induction l as [|y l IH]; simpl; [done|].
  destruct (less y x); simpl; by rewrite ?IH.
Qed.

Lemma stable_sort_length {A} (less : A → A → bool) l :
  length (stable_sort less l) = length l.
Proof.
  induction l as [|x l IH]; simpl; [done|].
  by rewrite insert_sorted_length, IH.
Qed.

Ltac case_less Hlt :=
  match goal with
  | |- context [less_by ?k ?y ?x] =>
      destruct (less_by k y x) eqn:Hlt; unfold less_by in Hlt;
      [apply bool_decide_eq_true in Hlt|apply bool_decide_eq_false in Hlt]
  end.

Section sort_facts.
Context {A : Type}.
Variable key : A → Z.
Implicit Types (l : list A).

Lemma less_by_true x y : (key x < key y)%Z → less_by key x y = true.
Proof. intros. unfold less_by. by rewrite bool_decide_true. Qed.

Lemma insert_sorted_Permutation x l : insert_sorted (less_by key) x l ≡ₚ x :: l.
Proof.
  induction l as [|y l IH]; simpl; [done|].
  case_less Hlt; [|done]. rewrite IH. apply Permutation_swap.
Qed.

Lemma stable_sort_Permutation l : stable_sort (less_by key) l ≡ₚ l.
Proof.
  induction l as [|x l IH]; simpl; [done|].
  by rewrite insert_sorted_Permutation, IH.
Qed.

Lemma insert_sorted_ascending x l :
  ascending key l → ascending key (insert_sorted (less_by key) x l).
Proof.
  unfold ascending. induction l as [|y l IH]; simpl; intros Hl.
  - repeat constructor.
  - apply StronglySorted_cons in Hl as [Hy Hl].
    case_less Hlt.
    + constructor; [by apply IH|].
      rewrite insert_sorted_Permutation. constructor; [lia|done].
    + constructor; [by constructor|].
      constructor; [lia|]. eapply Forall_impl; [done|].
      simpl. intros; lia.
Qed.

Lemma stable_sort_ascending l : ascending key (stable_sort (less_by key) l).
Proof.
  induction l as [|x l IH]; simpl; [constructor|].
  by apply insert_sorted_ascending.
Qed.

(** Stability: the elements of one key keep their order. *)
Lemma insert_sorted_filter x l k :
  filter (λ y, key y = k) (insert_sorted (less_by key) x l) =
  filter (λ y, key y = k) (x :: l).
Proof.
  induction l as [|y l IH]; simpl; [done|].
  case_less Hlt; [|done].
  rewrite filter_cons, IH, !filter_cons.
  repeat case_decide; try done; lia.
Qed.

Lemma stable_sort_filter l k :
  filter (λ y, key y = k) (stable_sort (less_by key) l) =
  filter (λ y, key y = k) l.
Proof.
  induction l as [|x l IH]; simpl; [done|].
  rewrite insert_sorted_filter, !filter_cons, IH. done.
Qed.

Lemma insert_sorted_last x l :
  Forall (λ y, key y < key x)%Z l → insert_sorted (less_by key) x l = l ++ [x].
Proof.
  induction 1 as [|y l Hy Hl IH]; simpl; [done|].
  rewrite less_by_true by done. by rewrite IH.
Qed.

Lemma stable_sort_descending l :
  descending key l → stable_sort (less_by key) l = reverse l.
Proof.
  unfold descending. induction l as [|x l IH]; simpl; intros Hl; [done|].
  apply StronglySorted_cons in Hl as [Hx Hl].
  rewrite IH, reverse_cons by done.
  apply insert_sorted_last. by rewrite Forall_reverse.
Qed.

Lemma ascending_alt l :
  ascending key l ↔ StronglySorted Z.le (key <$> l).
Proof.
  unfold ascending. induction l as [|x l IH]; simpl.
  - split; constructor.
  - rewrite !StronglySorted_cons, IH, Forall_fmap. done.
Qed.

Lemma ascending_fmap l1 l2 :
  key <$> l1 = key <$> l2 → ascending key l1 → ascending key l2.
Proof. rewrite !ascending_alt. by intros ->. Qed.

Lemma uniq_from_descending seen l :
  ascending key l → descending key (reverse (uniq_from key seen l)).
Proof.
  unfold ascending, descending. revert seen.
  induction l as [|x l IH]; intros seen Hl; simpl.
  - constructor.
  - apply StronglySorted_cons in Hl as [Hx Hl].
    case_decide; [by apply IH|].
    rewrite reverse_cons. apply StronglySorted_app_2.
    + intros y z Hy ->%list_elem_of_singleton.
      apply elem_of_reverse, uniq_from_elem_of in Hy as [Hy Hk].
      rewrite Forall_forall in Hx. specialize (Hx y Hy).
      assert (key y ≠ key x) by set_solver. lia.
    + by apply IH.
    + repeat constructor.
Qed.

Lemma descending_NoDup l : descending key l → NoDup (key <$> l).
Proof.
  unfold descending. induction 1 as [|x l Hl IH Hx]; simpl.
  - constructor.
  - constructor; [|done].
    intros (y & Hy & Hin)%list_elem_of_fmap.
    rewrite Forall_forall in Hx. specialize (Hx y Hin). lia.
Qed.
End sort_facts.

(** ** The anti-churn pass on sequences *)

Lemma flip_from_Permutation x l : flip_from x l ≡ₚ x :: l.
Proof.
  revert x. induction l as [|y l IH]; intros x; simpl; [done|].
  case_decide.
  - rewrite IH. apply Permutation_swap.
  - by rewrite IH.
Qed.

Lemma flip_pairs_Permutation l : flip_pairs l ≡ₚ l.
Proof. destruct l; [done|]. apply flip_from_Permutation. Qed.

Lemma flip_pairs_length l : length (flip_pairs l) = length l.
Proof. by rewrite flip_pairs_Permutation. Qed.

(** The pass only exchanges elements of equal identifier. *)
Lemma flip_from_ID x l : ID <$> flip_from x l = ID <$> x :: l.
Proof.
  revert x. induction l as [|y l IH]; intros x; simpl; [done|].
  case_decide as Ht.
  - rewrite !fmap_cons, IH, fmap_cons. destruct Ht as [-> _]. done.
  - by rewrite !fmap_cons, IH.
Qed.

Lemma flip_pairs_ID l : ID <$> flip_pairs l = ID <$> l.
Proof. destruct l; [done|]. apply flip_from_ID. Qed.

Lemma flip_from_id x l : NoDup (ID <$> x :: l) → flip_from x l = x :: l.
Proof.
  revert x. induction l as [|y l IH]; intros x Hnd; simpl; [done|].
  rewrite !fmap_cons in Hnd. apply NoDup_cons in Hnd as [Hx Hnd].
  rewrite decide_False.
  - f_equal. by apply IH.
  - intros [Heq _]. apply Hx. rewrite Heq. by left.
Qed.

Lemma flip_pairs_id l : NoDup (ID <$> l) → flip_pairs l = l.
Proof. destruct l; [done|]. apply flip_from_id. Qed.

Lemma flip_from_filter k x l :
  ascending ID (x :: l) →
  length (filter (λ y, ID y = k) (x :: l)) ≤ 2 →
  filter (λ y, ID y = k) (flip_from x l) =
    flip_group (filter (λ y, ID y = k) (x :: l)).
Proof.
  unfold ascending. revert x. induction l as [|y l IH]; intros x Hs Hlen.
  - simpl. rewrite filter_cons, filter_nil. by case_decide.
  - apply StronglySorted_cons in Hs as [Hx Hs].
    assert (StronglySorted (λ a b, (ID a ≤ ID b)%Z) (x :: l)) as Hxl.
    { apply StronglySorted_cons in Hs as [_ Hs].
      constructor; [done|]. by apply Forall_cons in Hx as [_ ?]. }
    pose proof (IH x Hxl) as IHx. pose proof (IH y Hs) as IHy. clear IH.
    assert (ID x = k → ID y ≠ k → filter (λ y, ID y = k) l = []) as Hgap.
    { intros Hk Hyk. apply filter_key_not_elem_of.
      intros (z & Hz & Hin)%list_elem_of_fmap.
      apply Forall_cons in Hx as [Hxy _].
      apply StronglySorted_cons in Hs as [Hy _].
      rewrite Forall_forall in Hy. specialize (Hy z Hin).
      simpl in *. lia. }
    rewrite !filter_cons in Hlen, IHx, IHy.
    revert Hlen IHx IHy Hgap.
    simpl. destruct (decide (trivial_change x y)) as [Ht|Ht];
      rewrite !filter_cons;
      destruct (decide (ID x = k)) as [Hk|Hk];
      destruct (decide (ID y = k)) as [Hyk|Hyk]; simpl;
      intros Hlen IHx IHy Hgap.
    + assert (filter (λ y, ID y = k) l = []) as Hnil
        by (apply length_zero_iff_nil; lia).
      rewrite IHx by (rewrite Hnil; simpl; lia).
      rewrite Hnil. simpl. by rewrite decide_True.
    + destruct Ht as [? _]. congruence.
    + destruct Ht as [? _]. congruence.
    + by apply IHx.
    + assert (filter (λ y, ID y = k) l = []) as Hnil
        by (apply length_zero_iff_nil; lia).
      rewrite IHy by (rewrite Hnil; simpl; lia).
      rewrite Hnil. simpl. by rewrite decide_False.
    + rewrite IHy by lia. by rewrite Hgap.
    + by apply IHy.
    + by apply IHy.
Qed.

(** ** The in-place loops compute the reference functions *)

Section helper_facts.
Context {A K : Type} `{Countable K}.
Variable key : A → K.
Implicit Types (h : heap A) (s : slice) (c R : list A) (seen : gset K).

Lemma compact_state c0 R :
  length R ≤ length c0 →
  length (R ++ drop (length R) c0) = length c0.
Proof. intros. rewrite length_app, length_drop. lia. Qed.

Lemma compact_lookup c0 R i :
  length R ≤ i → (R ++ drop (length R) c0) !! i = c0 !! i.
Proof.
  intros. rewrite lookup_app_r by done. rewrite lookup_drop.
  f_equal. lia.
Qed.

Lemma compact_insert c0 R x :
  length R < length c0 →
  <[length R := x]> (R ++ drop (length R) c0) =
    (R ++ [x]) ++ drop (length (R ++ [x])) c0.
Proof.
  intros Hlt. rewrite <-(Nat.add_0_r (length R)) at 1.
  rewrite insert_app_r.
  destruct (drop (length R) c0) as [|y d] eqn:Hd.
  - apply (f_equal length) in Hd. rewrite length_drop in Hd.
    simpl in Hd. lia.
  - simpl. rewrite <-app_assoc. simpl. do 2 f_equal.
    rewrite length_app. simpl.
    rewrite <-(drop_drop c0 1 (length R)), Hd. done.
Qed.

Lemma sliceUniq_loop_spec h0 s selector :
  wf h0 s →
  (∀ h i, selector h i = key <$> load h s i) →
  ∀ n i R seen,
    i + n = len s → length R ≤ i →
    sliceUniq_loop selector s n i (length R) seen
      (set_content h0 s (R ++ drop (length R) (content h0 s))) =
    let R' := R ++ uniq_from key seen (drop i (content h0 s)) in
    Some (set_content h0 s (R' ++ drop (length R') (content h0 s)),
          length R').
Proof.
  intros Hwf Hsel. pose proof (content_length h0 s Hwf) as Hc0.
  induction n as [|n IH]; intros i R seen Hin HR; simpl.
  - rewrite (drop_ge _ i) by lia. by rewrite app_nil_r.
  - destruct (lookup_lt_is_Some_2 (content h0 s) i) as [x Hx]; [lia|].
    rewrite Hsel, !load_set_content
      by (done || rewrite compact_state; lia).
    rewrite compact_lookup, Hx by done. simpl.
    rewrite (drop_S _ x i) by done. simpl.
    case_decide as Hseen.
    + apply IH; lia.
    + rewrite store_set_content
        by (done || lia || rewrite compact_state; lia).
      simpl. rewrite compact_insert by lia.
      replace (S (length R)) with (length (R ++ [x]))
        by (rewrite length_app; simpl; lia).
      rewrite IH by (rewrite ?length_app; simpl; lia).
      simpl. by rewrite <-!app_assoc.
Qed.

(** sliceUniq returns the first occurrences, in the cells it was given;
    the cells behind the result keep their values. *)
Lemma sliceUniq_spec h s selector :
  wf h s →
  (∀ h i, selector h i = key <$> load h s i) →
  let R := uniq_from key ∅ (content h s) in
  sliceUniq selector h s =
    Some (set_content h s (R ++ drop (length R) (content h s)),
          reslice s (length R)).
Proof.
  intros Hwf Hsel R. unfold sliceUniq.
  pose proof (sliceUniq_loop_spec h s selector Hwf Hsel (len s) 0 [] ∅)
    as Hloop.
  simpl in Hloop. rewrite drop_0, set_content_id in Hloop.
  rewrite Hloop by lia. done.
Qed.

Lemma sliceKeepOnly_values_spec h s selector :
  wf h s →
  (∀ h i, selector h i = key <$> load h s i) →
  ∀ n i seen,
    i + n = len s →
    ∃ seen', sliceKeepOnly_values selector n i seen h = Some seen' ∧
      ∀ k, k ∈ seen' ↔ k ∈ seen ∨ k ∈ key <$> drop i (content h s).
Proof.
  intros Hwf Hsel. pose proof (content_length h s Hwf) as Hc0.
  induction n as [|n IH]; intros i seen Hin; simpl.
  - exists seen. split; [done|]. intros k.
    rewrite drop_ge by lia. set_solver.
  - destruct (lookup_lt_is_Some_2 (content h s) i) as [x Hx]; [lia|].
    rewrite Hsel, load_content, Hx. simpl.
    destruct (IH (S i) ({[key x]} ∪ seen)) as (seen' & -> & Hseen');
      [lia|].
    exists seen'. split; [done|]. intros k.
    rewrite Hseen', (drop_S _ x i) by done.
    rewrite fmap_cons, elem_of_cons. set_solver.
Qed.

Lemma sliceKeepOnly_loop_spec h0 s selector (V : gset K) :
  wf h0 s →
  (∀ h i, selector h i = key <$> load h s i) →
  ∀ n i R,
    i + n = len s → length R ≤ i →
    sliceKeepOnly_loop selector s V n i (length R)
      (set_content h0 s (R ++ drop (length R) (content h0 s))) =
    let R' := R ++ filter (λ x, key x ∈ V) (drop i (content h0 s)) in
    Some (set_content h0 s (R' ++ drop (length R') (content h0 s)),
          length R').
Proof.
  intros Hwf Hsel. pose proof (content_length h0 s Hwf) as Hc0.
  induction n as [|n IH]; intros i R Hin HR; simpl.
  - rewrite (drop_ge _ i) by lia. by rewrite filter_nil, app_nil_r.
  - destruct (lookup_lt_is_Some_2 (content h0 s) i) as [x Hx]; [lia|].
    rewrite Hsel, !load_set_content
      by (done || rewrite compact_state; lia).
    rewrite compact_lookup, Hx by done. simpl.
    rewrite (drop_S _ x i) by done. rewrite filter_cons.
    case_decide as Hseen.
    + rewrite store_set_content
        by (done || lia || rewrite compact_state; lia).
      simpl. rewrite compact_insert by lia.
      replace (S (length R)) with (length (R ++ [x]))
        by (rewrite length_app; simpl; lia).
      rewrite IH by (rewrite ?length_app; simpl; lia).
      simpl. by rewrite <-!app_assoc.
    + apply IH; lia.
Qed.
End helper_facts.

Section keep_only_facts.
Context {A K : Type} `{Countable K}.
Variables key1 key2 : A → K.

(** sliceKeepOnly returns the elements of [s1] whose key is one of [s2],
    in the cells of [s1]. *)
Lemma sliceKeepOnly_spec (h : heap A) s1 s2 selector1 selector2 :
  wf h s1 → wf h s2 →
  (∀ h i, selector1 h i = key1 <$> load h s1 i) →
  (∀ h i, selector2 h i = key2 <$> load h s2 i) →
  let R := filter (λ x, key1 x ∈ key2 <$> content h s2) (content h s1) in
  sliceKeepOnly selector1 selector2 h s1 s2 =
    Some (set_content h s1 (R ++ drop (length R) (content h s1)),
          reslice s1 (length R)).
Proof.
  intros Hwf1 Hwf2 Hsel1 Hsel2 R. unfold sliceKeepOnly.
  destruct (sliceKeepOnly_values_spec key2 h s2 selector2 Hwf2 Hsel2
              (len s2) 0 ∅) as (V & -> & HV); [lia|].
  simpl.
  pose proof (sliceKeepOnly_loop_spec key1 h s1 selector1 V Hwf1 Hsel1
                (len s1) 0 []) as Hloop.
  simpl in Hloop. rewrite drop_0, set_content_id in Hloop.
  rewrite Hloop by lia. simpl.
  assert (filter (λ x, key1 x ∈ V) (content h s1) = R) as ->; [|done].
  apply list_filter_iff. intros x. rewrite HV, drop_0. set_solver.
Qed.
End keep_only_facts.

Section reverse_facts.
Context {A : Type}.
Implicit Types (h : heap A) (s : slice) (c : list A).

Lemma sliceReverse_loop_spec h0 s :
  wf h0 s →
  ∀ fuel i j c,
    length c = len s → j < len s ∨ j ≤ i → j - i ≤ 2 * fuel →
    ∃ c', sliceReverse_loop fuel s i j (set_content h0 s c) =
            Some (set_content h0 s c') ∧
          length c' = length c ∧
          ∀ p, c' !! p =
               if decide (i ≤ p ≤ j) then c !! (i + j - p) else c !! p.
Proof.
  intros Hwf. induction fuel as [|fuel IH]; intros i j c Hc Hj Hfuel.
  - simpl. rewrite decide_False by lia. exists c.
    split; [done|]. split; [done|]. intros p.
    case_decide; [|done]. f_equal. lia.
  - simpl. case_decide as Hij.
    + destruct (lookup_lt_is_Some_2 c i) as [x Hx]; [lia|].
      destruct (lookup_lt_is_Some_2 c j) as [y Hy]; [lia|].
      rewrite (swap_set_content _ _ _ _ _ x y) by done. simpl.
      destruct (IH (S i) (pred j) (<[j := x]> (<[i := y]> c)))
        as (c' & -> & Hlen & Hc'); [by rewrite !length_insert|lia..|].
      exists c'. split; [done|].
      split; [by rewrite Hlen, !length_insert|].
      intros p. rewrite Hc'.
      destruct (decide (p = i)) as [->|Hpi].
      * rewrite decide_False, decide_True by lia.
        rewrite list_lookup_insert_ne by lia.
        rewrite list_lookup_insert_eq by lia.
        rewrite <-Hy. f_equal. lia.
      * destruct (decide (p = j)) as [->|Hpj].
        -- rewrite decide_False, decide_True by lia.
           rewrite list_lookup_insert_eq by (rewrite length_insert; lia).
           rewrite <-Hx. f_equal. lia.
        -- repeat case_decide; try lia;
             rewrite !list_lookup_insert_ne by lia; f_equal; lia.
    + exists c. split; [done|]. split; [done|]. intros p.
      case_decide; [|done]. f_equal. lia.
Qed.

(** sliceReverse reverses the elements in place. *)
Lemma sliceReverse_spec h s :
  wf h s →
  sliceReverse h s = Some (set_content h s (reverse (content h s))).
Proof.
  intros Hwf. unfold sliceReverse.
  pose proof (content_length h s Hwf) as Hlen.
  destruct (sliceReverse_loop_spec h s Hwf (len s) 0 (len s - 1)
              (content h s)) as (c' & Hrun & Hlen' & Hc');
    [done|lia..|].
  rewrite set_content_id in Hrun. rewrite Hrun. do 2 f_equal.
  apply list_eq. intros p.
  destruct (decide (p < len s)) as [Hp|Hp].
  - rewrite Hc', decide_True by lia.
    rewrite reverse_lookup by lia. f_equal. lia.
  - rewrite !lookup_ge_None_2; [done|rewrite ?length_reverse; lia..].
Qed.

Lemma SliceStable_wf less h s s' :
  wf h s → wf h s' → wf (SliceStable less h s) s'.
Proof.
  intros Hwf Hwf'. unfold SliceStable. apply wf_set_content; [done| |done].
  by rewrite stable_sort_length, content_length.
Qed.
End reverse_facts.

(** The pass, in place. *)
Lemma flip_loop_spec h0 s :
  wf h0 s →
  ∀ rest P x,
    length (P ++ x :: rest) = len s →
    flip_loop s (length rest) (length P) (set_content h0 s (P ++ x :: rest))
      = Some (set_content h0 s (P ++ flip_from x rest)).
Proof.
  intros Hwf. induction rest as [|y rest IH]; intros P x Hlen; simpl.
  - done.
  - rewrite !(load_set_content h0 s (P ++ x :: y :: rest)) by done.
    rewrite (list_lookup_middle P (y :: rest) x (length P)) by done. simpl.
    assert ((P ++ x :: y :: rest) !! S (length P) = Some y) as ->.
    { rewrite (cons_middle x), app_assoc.
      apply list_lookup_middle. rewrite length_app. simpl. lia. }
    simpl.
    assert (∀ z, length P + 1 = length (P ++ [z])) as HP
      by (intros; rewrite length_app; simpl; lia).
    assert (flip_loop s (length rest) (S (length P))
              (set_content h0 s (P ++ x :: y :: rest)) =
            Some (set_content h0 s (P ++ x :: flip_from y rest))) as Hkeep.
    { replace (S (length P)) with (length (P ++ [x]))
        by (rewrite length_app; simpl; lia).
      assert (P ++ x :: y :: rest = (P ++ [x]) ++ y :: rest) as Hshift
        by (by rewrite <-app_assoc).
      rewrite Hshift, IH by (by rewrite <-Hshift).
      by rewrite <-app_assoc. }
    destruct (decide (trivial_change x y)) as [Ht|Ht].
    + destruct Ht as (Hid & Htext & Hent & Hfav).
      rewrite decide_False by (intros Hne; by apply Hne).
      rewrite decide_False by (intros Hne; by apply Hne).
      rewrite decide_False by (intros Hne; by apply Hne).
      rewrite decide_True by done.
      rewrite (swap_set_content _ _ _ _ _ x y); [|done|done| |].
      * simpl.
        assert (<[S (length P) := x]> (<[length P := y]>
                  (P ++ x :: y :: rest)) = (P ++ [y]) ++ x :: rest) as ->.
        { rewrite <-(Nat.add_0_r (length P)) at 2.
          rewrite insert_app_r. simpl.
          replace (S (length P)) with (length P + 1) by lia.
          rewrite insert_app_r. simpl. by rewrite <-app_assoc. }
        replace (S (length P)) with (length (P ++ [y]))
          by (rewrite length_app; simpl; lia).
        rewrite IH.
        -- by rewrite <-app_assoc.
        -- rewrite <-Hlen, !length_app. simpl. lia.
      * by apply list_lookup_middle.
      * rewrite (cons_middle x), app_assoc.
        apply list_lookup_middle. rewrite length_app. simpl. lia.
    + unfold trivial_change, noise_only, delta in Ht.
      repeat case_decide; try done; tauto.
Qed.

Lemma flipDuplicateTweetsOnTrivialChanges_spec h s :
  wf h s →
  flipDuplicateTweetsOnTrivialChanges h s =
    Some (set_content h s (flip_pairs (content h s))).
Proof.
  intros Hwf. unfold flipDuplicateTweetsOnTrivialChanges.
  pose proof (content_length h s Hwf) as Hlen.
  destruct (content h s) as [|x rest] eqn:Hc.
  - simpl in *. rewrite <-Hlen. simpl.
    transitivity (Some (set_content h s (content h s)));
      [by rewrite set_content_id|by rewrite Hc].
  - simpl in Hlen.
    pose proof (flip_loop_spec h s Hwf rest [] x) as Hloop.
    simpl in Hloop.
    replace (set_content h s (x :: rest)) with h in Hloop
      by (by rewrite <-Hc, set_content_id).
    replace (len s - 1) with (length rest) by lia.
    by rewrite Hloop by lia.
Qed.

(** ** append *)

Section append_facts.
Context {A : Type}.
Implicit Types (h : heap A) (s : slice).

Lemma backing_app_l h a s x :
  h !! arr s = Some x → backing (h ++ [a]) s = backing h s.
Proof.
  intros Ha. unfold backing.
  by rewrite (lookup_app_l_Some _ _ _ _ Ha), Ha.
Qed.

Lemma content_app_l h a s : wf h s → content (h ++ [a]) s = content h s.
Proof.
  intros [Hlen Hoff]. unfold content.
  destruct (h !! arr s) eqn:Ha.
  - by rewrite (backing_app_l _ _ _ _ Ha).
  - unfold backing in Hoff. rewrite Ha in Hoff. simpl in Hoff.
    replace (len s) with 0 by lia. done.
Qed.

Lemma wf_app_l h a s : wf h s → wf (h ++ [a]) s.
Proof.
  intros [Hlen Hoff]. split; [done|].
  destruct (h !! arr s) eqn:Ha.
  - by rewrite (backing_app_l _ _ _ _ Ha).
  - unfold backing in Hoff. rewrite Ha in Hoff. simpl in Hoff. lia.
Qed.

(** append returns a slice holding both sequences; every slice keeps its
    shape, and one that shares no cell with the cells of [s1] up to its
    capacity keeps its elements and shares none with the result. *)
Lemma append_spec h s1 s2 :
  wf h s1 → length (content h s2) = len s2 →
  ∃ h' s, append h s1 s2 = (h', s) ∧
    wf h' s ∧
    content h' s = content h s1 ++ content h s2 ∧
    (∀ s', wf h s' → wf h' s') ∧
    (∀ s', wf h s' → separate s1 s' →
           content h' s' = content h s' ∧ apart s s').
Proof.
  intros Hwf1 Hc2. pose proof Hwf1 as [Hlen1 Hoff1].
  unfold append. case_decide as Hcap.
  - set (t := Slice (arr s1) (off s1 + len s1) (len s2) (cap s1 - len s1)).
    set (s := Slice (arr s1) (off s1) (len s1 + len s2) (cap s1)).
    assert (wf h t) as Hwft.
    { split; simpl; [lia|]. change (backing h t) with (backing h s1). lia. }
    change (alter (splice (off s1 + len s1) (content h s2)) (arr s1) h)
      with (set_content h t (content h s2)).
    eexists _, _. split; [done|].
    assert (∀ s', wf h s' → wf (set_content h t (content h s2)) s')
      as Hwf' by (intros; apply wf_set_content; (done || simpl; lia)).
    split; [|split; [|split; [done|]]].
    + apply (Hwf' s). split; simpl; [lia|done].
    + apply list_eq. intros q. rewrite content_lookup. simpl.
      change (backing (set_content h t (content h s2)) s)
        with (backing (set_content h t (content h s2)) t).
      rewrite backing_set_content by (done || simpl; lia).
      change (backing h t) with (backing h s1).
      rewrite splice_lookup by (simpl; lia). simpl.
      pose proof (content_length h s1 Hwf1) as Hc1.
      destruct (decide (q < len s1)) as [Hq|Hq].
      * rewrite lookup_app_l by lia.
        rewrite (content_lookup h s1).
        repeat case_decide; try lia; done.
      * rewrite lookup_app_r by lia. rewrite Hc1.
        repeat case_decide; try lia.
        -- f_equal. lia.
        -- symmetry. apply lookup_ge_None. lia.
    + intros s' Hs' Hsep. split.
      * apply content_set_content_frame; [done|simpl; lia|]. simpl.
        unfold separate in Hsep. rewrite Hc2. lia.
      * unfold apart, separate in *. simpl. lia.
  - eexists _, _. split; [done|].
    split; [|split; [|split]].
    + split; simpl; [lia|]. unfold backing. simpl.
      rewrite list_lookup_middle by done. simpl. 
      rewrite length_app, Hc2, (content_length h s1) by done. lia.
    + unfold content at 1, backing. simpl.
      rewrite list_lookup_middle by done. simpl.
      rewrite drop_0, take_ge; [done|].
      rewrite length_app, Hc2, (content_length h s1) by done. lia.
    + intros s' Hs'. by apply wf_app_l.
    + intros s' Hs' _. split; [by apply content_app_l|].
      unfold apart. simpl. destruct Hs' as [Hlen' Hoff'].
      unfold backing in Hoff'. destruct (h !! arr s') eqn:Ha.
      * apply lookup_lt_Some in Ha. lia.
      * simpl in Hoff'. lia.
Qed.
End append_facts.

(** The slice returned by a compaction holds the compacted elements. *)
Lemma compacted_content {A} (h : heap A) s (R : list A) :
  wf h s → length R ≤ len s →
  content (set_content h s (R ++ drop (length R) (content h s)))
    (reslice s (length R)) = R.
Proof.
  intros Hwf HR. pose proof (content_length h s Hwf) as Hc0.
  rewrite content_reslice by done.
  rewrite content_set_content; [by rewrite take_app_length|done|].
  rewrite length_app, length_drop. lia.
Qed.

(** ** The reconcilers on sequences *)

Section finish.
Context {A K : Type} `{Countable K}.
Variable key : A → K.

(** The common end of both reconcilers: sliceUniq, then sliceReverse on
    its result. *)
Lemma uniq_reverse_spec (h : heap A) s selector :
  wf h s →
  (∀ h i, selector h i = key <$> load h s i) →
  ∃ h1 r h',
    sliceUniq selector h s = Some (h1, r) ∧
    sliceReverse h1 r = Some h' ∧
    r = reslice s (length (uniq_from key ∅ (content h s))) ∧
    content h' r = reverse (uniq_from key ∅ (content h s)) ∧
    wf h' r ∧
    (∀ s', wf h s' → wf h' s') ∧
    (∀ s', apart s s' → content h' s' = content h s').
Proof.
  intros Hwf Hsel.
  pose proof (content_length h s Hwf) as Hc0.
  set (R := uniq_from key ∅ (content h s)).
  assert (length R ≤ len s) as HR.
  { rewrite <-Hc0. apply sublist_length, uniq_from_sublist. }
  set (c1 := R ++ drop (length R) (content h s)).
  assert (length c1 = len s) as Hc1
    by (unfold c1; rewrite compact_state; lia).
  set (h1 := set_content h s c1). set (r := reslice s (length R)).
  assert (wf h1 s) as Hwf1 by (apply wf_set_content; (done || lia)).
  assert (wf h1 r) as Hwfr by (by apply wf_reslice).
  assert (content h1 r = R) as Hcr.
  { unfold r. rewrite content_reslice by done.
    unfold h1. rewrite content_set_content by done.
    unfold c1. by rewrite take_app_length. }
  exists h1, r, (set_content h1 r (reverse R)).
  split; [by apply sliceUniq_spec|].
  split; [by rewrite sliceReverse_spec, Hcr|].
  split; [done|].
  split; [|split; [|split]].
  - apply content_set_content; [done|]. by rewrite length_reverse.
  - apply wf_set_content; [done|by rewrite length_reverse|done].
  - intros s' Hs'. apply wf_set_content;
      [done|by rewrite length_reverse|].
    apply wf_set_content; (done || lia).
  - intros s' Hap. unfold apart in Hap.
    rewrite content_set_content_frame;
      [|done|by rewrite length_reverse|rewrite length_reverse; simpl; lia].
    unfold h1. apply content_set_content_frame; [done|lia|lia].
Qed.
End finish.

Lemma mergeTweets_spec h fresh stored :
  wf h fresh → length (content h stored) = len stored →
  ∃ h' r, mergeTweets h fresh stored = Some (h', r) ∧
    content h' r = merged_tweets (content h fresh) (content h stored) ∧
    wf h' r ∧
    (∀ s', wf h s' → wf h' s') ∧
    (∀ s', wf h s' → separate fresh s' → content h' s' = content h s').
Proof.
  intros Hwf Hst. unfold mergeTweets.
  destruct (append_spec h fresh stored Hwf Hst)
    as (h1 & s & -> & Hwfs & Hcs & Hwf1 & Hframe1).
  set (less := less_by ID).
  assert (wf (SliceStable less h1 s) s) as Hwf2 by (by apply SliceStable_wf).
  assert (content (SliceStable less h1 s) s = stable_sort less (content h1 s))
    as Hc2.
  { apply content_set_content; [done|].
    by rewrite stable_sort_length, content_length. }
  rewrite flipDuplicateTweetsOnTrivialChanges_spec by done. simpl.
  rewrite Hc2.
  set (c3 := flip_pairs (stable_sort less (content h1 s))).
  assert (length c3 = len s) as Hc3.
  { unfold c3. by rewrite flip_pairs_length, stable_sort_length,
      content_length. }
  set (h3 := set_content (SliceStable less h1 s) s c3).
  assert (wf h3 s) as Hwf3 by (apply wf_set_content; (done || lia)).
  destruct (uniq_reverse_spec ID h3 s (λ h i, ID <$> load h s i) Hwf3)
    as (h4 & r & h5 & -> & Hrev & _ & Hcr & Hwfr & Hwf5 & Hframe5); [done|].
  simpl. rewrite Hrev. simpl. eexists _, _. split; [done|].
  assert (content h3 s = c3) as Hc3' by (by apply content_set_content).
  split; [|split; [done|split]].
  - rewrite Hcr, Hc3'. unfold merged_tweets, c3. by rewrite Hcs.
  - intros s' Hs'. apply Hwf5. apply wf_set_content; [done|lia|].
    apply SliceStable_wf; [done|]. by apply Hwf1.
  - intros s' Hs' Hsep. destruct (Hframe1 s' Hs' Hsep) as [Hc1 Hap].
    rewrite Hframe5 by done. unfold h3, SliceStable, apart in *.
    rewrite !content_set_content_frame; first done.
    + done.
    + by rewrite stable_sort_length, content_length.
    + rewrite stable_sort_length, content_length by done. lia.
    + apply wf_set_content; [done| |done].
      by rewrite stable_sort_length, content_length.
    + lia.
    + lia.
Qed.

Lemma mergeReadings_spec h fresh stored :
  wf h fresh → wf h stored →
  let kept := kept_readings (content h fresh) (content h stored) in
  let h1 :=
    set_content h stored (kept ++ drop (length kept) (content h stored)) in
  ∃ h' r, mergeReadings h fresh stored = Some (h', r) ∧
    content h' r = merged_readings (content h1 fresh) kept ∧
    wf h' r ∧
    (∀ s', wf h s' → wf h' s') ∧
    (∀ s', wf h s' → separate fresh s' → content h' s' = content h1 s').
Proof.
  intros Hwf Hst kept h1. unfold mergeReadings.
  rewrite (sliceKeepOnly_spec ReviewID ReviewID h stored fresh) by done.
  fold (kept_readings (content h fresh) (content h stored)). fold kept.
  fold h1. simpl.
  pose proof (content_length h stored Hst) as Hc0.
  assert (length kept ≤ len stored) as Hk.
  { rewrite <-Hc0. apply length_filter. }
  assert (∀ s', wf h s' → wf h1 s') as Hwfh1.
  { intros s' Hs'. apply wf_set_content; [done| |done].
    rewrite compact_state; lia. }
  set (stored' := reslice stored (length kept)).
  assert (content h1 stored' = kept) as Hkept.
  { unfold stored'. rewrite content_reslice by done.
    unfold h1. rewrite content_set_content
      by (done || rewrite compact_state; lia).
    by rewrite take_app_length. }
  destruct (append_spec h1 fresh stored')
    as (h2 & s & -> & Hwfs & Hcs & Hwf2 & Hframe2);
    [by apply Hwfh1|by rewrite Hkept|].
  set (less := less_by ReviewID).
  assert (wf (SliceStable less h2 s) s) as Hwf3 by (by apply SliceStable_wf).
  assert (content (SliceStable less h2 s) s = stable_sort less (content h2 s))
    as Hc3.
  { apply content_set_content; [done|].
    by rewrite stable_sort_length, content_length. }
  destruct (uniq_reverse_spec ReviewID (SliceStable less h2 s) s
              (λ h i, ReviewID <$> load h s i) Hwf3)
    as (h4 & r & h5 & -> & Hrev & _ & Hcr & Hwfr & Hwf5 & Hframe5); [done|].
  simpl. rewrite Hrev. simpl. eexists _, _. split; [done|].
  split; [|split; [done|split]].
  - rewrite Hcr, Hc3, Hcs, Hkept. done.
  - intros s' Hs'. apply Hwf5. apply SliceStable_wf; [done|].
    by apply Hwf2, Hwfh1.
  - intros s' Hs' Hsep.
    destruct (Hframe2 s' (Hwfh1 s' Hs') Hsep) as [Hc1 Hap].
    rewrite Hframe5 by done. unfold SliceStable, apart in *.
    rewrite content_set_content_frame; first done.
    + done.
    + by rewrite stable_sort_length, content_length.
    + rewrite stable_sort_length, content_length by done. lia.
Qed.

Lemma merged_tweets_descending fresh stored :
  descending ID (merged_tweets fresh stored).
Proof.
  unfold merged_tweets. apply uniq_from_descending.
  eapply ascending_fmap; [symmetry; apply flip_pairs_ID|].
  apply stable_sort_ascending.
Qed.

Lemma merged_readings_descending fresh kept :
  descending ReviewID (merged_readings fresh kept).
Proof.
  unfold merged_readings. apply uniq_from_descending, stable_sort_ascending.
Qed.

Lemma merged_tweets_keys fresh stored x :
  x ∈ fresh ++ stored → ID x ∈ ID <$> merged_tweets fresh stored.
Proof.
  intros Hx. unfold merged_tweets. rewrite fmap_reverse, elem_of_reverse.
  destruct (uniq_from_keys ID ∅
    (flip_pairs (stable_sort (less_by ID)
                   (fresh ++ stored))) x) as [Hin|Hin]; [|set_solver|done].
  by rewrite flip_pairs_Permutation, (stable_sort_Permutation ID).
Qed.

Lemma merged_tweets_filter fresh stored f s :
  NoDup (ID <$> fresh) → NoDup (ID <$> stored) →
  f ∈ fresh → s ∈ stored → ID f = ID s →
  filter (λ x, ID x = ID f) (merged_tweets fresh stored) =
    [if decide (trivial_change f s) then s else f].
Proof.
  intros Hnf Hns Hf Hs Hid. unfold merged_tweets.
  set (sorted := stable_sort (less_by ID)
                   (fresh ++ stored)).
  assert (filter (λ x, ID x = ID f) sorted = [f; s]) as Hgroup.
  { unfold sorted. rewrite (stable_sort_filter ID), filter_app.
    rewrite (filter_key_NoDup ID fresh f) by done.
    rewrite Hid, (filter_key_NoDup ID stored s) by done. done. }
  rewrite filter_reverse, uniq_from_filter, decide_False by set_solver.
  destruct sorted as [|x l] eqn:Hsorted; [done|].
  unfold flip_pairs. rewrite flip_from_filter, Hgroup.
  - simpl. by case_decide.
  - rewrite <-Hsorted. apply stable_sort_ascending.
  - rewrite Hgroup. simpl. lia.
Qed.

Lemma merged_readings_filter fresh kept k :
  filter (λ x, ReviewID x = k) (merged_readings fresh kept) =
    take 1 (filter (λ x, ReviewID x = k) (fresh ++ kept)).
Proof.
  unfold merged_readings.
  rewrite filter_reverse, uniq_from_filter, decide_False by set_solver.
  rewrite (stable_sort_filter ReviewID).
  by destruct (filter (λ x, ReviewID x = k) (fresh ++ kept)).
Qed.

Lemma kept_readings_all fresh stored :
  (∀ x, x ∈ stored → ReviewID x ∈ ReviewID <$> fresh) →
  kept_readings fresh stored = stored.
Proof.
  unfold kept_readings. induction stored as [|x l IH]; intros Hall; [done|].
  rewrite filter_cons_True by (apply Hall; by left).
  f_equal. apply IH. intros y Hy. apply Hall. by right.
Qed.

Lemma merged_readings_elem_of fresh kept x :
  x ∈ merged_readings fresh kept → x ∈ fresh ∨ x ∈ kept.
Proof.
  unfold merged_readings. rewrite elem_of_reverse.
  intros [Hx _]%uniq_from_elem_of.
  rewrite (stable_sort_Permutation ReviewID) in Hx.
  by apply elem_of_app.
Qed.

Lemma merged_tweets_idem l :
  descending ID l → merged_tweets l [] = l.
Proof.
  intros Hl. unfold merged_tweets.
  rewrite app_nil_r, (stable_sort_descending ID) by done.
  pose proof (descending_NoDup ID l Hl) as Hnd.
  assert (NoDup (ID <$> reverse l)) as Hnd'
    by (by rewrite fmap_reverse, reverse_Permutation).
  rewrite flip_pairs_id by done.
  rewrite uniq_from_id by (done || set_solver).
  apply reverse_involutive.
Qed.

Lemma noise_only_refl t : noise_only t t.
Proof.
  unfold noise_only. rewrite !delta_refl. repeat split; lia.
Qed.

Lemma noise_only_counts f s :
  counts f → counts s → noise_only f s ↔ noise_only_exact f s.
Proof.
  intros [Hf1 Hf2] [Hs1 Hs2]. unfold noise_only, noise_only_exact.
  by rewrite !delta_count.
Qed.

(** ** The properties of the specification *)

(** C8. For every sequence and key function, the output of sliceUniq has no
    two elements of equal key, and it consists of the first occurrences of
    the input in their order: it is the sequence of the elements at the
    indices that no earlier index shares its key with, and a subsequence of
    the input. *)
Theorem sliceUniq_first_occurrences
    {A K : Type} `{Countable K} (key : A → K) (h : heap A) (s : slice) :
  wf h s →
  ∃ h' r,
    sliceUniq (selector_of key s) h s = Some (h', r) ∧
    NoDup (key <$> content h' r) ∧
    content h' r = first_occurrences key (content h s) ∧
    content h' r `sublist_of` content h s.
Proof.
  intros Hwf.
  pose proof (sliceUniq_spec key h s (selector_of key s) Hwf) as Hrun.
  simpl in Hrun. rewrite Hrun by done.
  set (R := uniq_from key ∅ (content h s)).
  assert (length R ≤ len s) as HR.
  { rewrite <-(content_length h s) by done.
    apply sublist_length, uniq_from_sublist. }
  eexists _, _. split; [done|].
  assert (content (set_content h s (R ++ drop (length R) (content h s)))
            (reslice s (length R)) = R) as ->.
  { by apply compacted_content. }
  split; [apply uniq_from_NoDup|].
  split; [apply uniq_from_first_occurrences|apply uniq_from_sublist].
Qed.

Lemma sliceUniq_first_occurrences_witness :
  ∃ h' r,
    sliceUniq (selector_of ID sample_stored) sample_tweets sample_stored
      = Some (h', r) ∧
    NoDup (ID <$> content h' r) ∧
    content h' r = first_occurrences ID (content sample_tweets sample_stored) ∧
    content h' r `sublist_of` content sample_tweets sample_stored.
Proof.
  apply (sliceUniq_first_occurrences ID sample_tweets sample_stored).
  split; simpl; lia.
Defined.

(** C9. For every primary and reference sequence with their key functions,
    the output of sliceKeepOnly is a subsequence of the primary sequence,
    in its order, holding exactly the elements whose key is the key of an
    element of the reference sequence. *)
Theorem sliceKeepOnly_subsequence
    {A K : Type} `{Countable K} (key1 key2 : A → K)
    (h : heap A) (s1 s2 : slice) :
  wf h s1 → wf h s2 →
  ∃ h' r,
    sliceKeepOnly (selector_of key1 s1) (selector_of key2 s2) h s1 s2
      = Some (h', r) ∧
    content h' r `sublist_of` content h s1 ∧
    content h' r =
      filter (λ x, key1 x ∈ key2 <$> content h s2) (content h s1) ∧
    ∀ x, x ∈ content h' r ↔
         x ∈ content h s1 ∧ key1 x ∈ key2 <$> content h s2.
Proof.
  intros Hwf1 Hwf2.
  pose proof (sliceKeepOnly_spec key1 key2 h s1 s2
                (selector_of key1 s1) (selector_of key2 s2) Hwf1 Hwf2)
    as Hrun.
  simpl in Hrun. rewrite Hrun by done.
  set (R := filter (λ x, key1 x ∈ key2 <$> content h s2) (content h s1)).
  assert (length R ≤ len s1) as HR.
  { rewrite <-(content_length h s1) by done. apply length_filter. }
  eexists _, _. split; [done|].
  assert (content (set_content h s1 (R ++ drop (length R) (content h s1)))
            (reslice s1 (length R)) = R) as ->.
  { by apply compacted_content. }
  split; [apply sublist_filter; apply _|]. split; [done|].
  intros x. unfold R. rewrite list_elem_of_filter. tauto.
Qed.

Lemma sliceKeepOnly_subsequence_witness :
  ∃ h' r,
    sliceKeepOnly (selector_of ReviewID sample_stored_readings)
      (selector_of ReviewID sample_fresh)
      sample_readings sample_stored_readings sample_fresh = Some (h', r) ∧
    content h' r `sublist_of` content sample_readings sample_stored_readings ∧
    content h' r =
      filter (λ x, ReviewID x ∈
                   ReviewID <$> content sample_readings sample_fresh)
        (content sample_readings sample_stored_readings) ∧
    ∀ x, x ∈ content h' r ↔
         x ∈ content sample_readings sample_stored_readings ∧
         ReviewID x ∈ ReviewID <$> content sample_readings sample_fresh.
Proof.
  apply (sliceKeepOnly_subsequence ReviewID ReviewID sample_readings
           sample_stored_readings sample_fresh); split; simpl; lia.
Defined.

(** C10. For every tweet sequence, flipDuplicateTweetsOnTrivialChanges
    returns and leaves a permutation of the sequence in the slice; the
    sequence of identifiers is unchanged, since only neighbours of equal
    identifier are exchanged, so a sequence sorted ascending by identifier
    stays sorted. *)
Theorem flipDuplicateTweetsOnTrivialChanges_permutation
    (h : heap Tweet) (tweets : slice) :
  wf h tweets →
  ∃ h',
    flipDuplicateTweetsOnTrivialChanges h tweets = Some h' ∧
    content h' tweets ≡ₚ content h tweets ∧
    ID <$> content h' tweets = ID <$> content h tweets ∧
    (ascending ID (content h tweets) → ascending ID (content h' tweets)).
Proof.
  intros Hwf. rewrite flipDuplicateTweetsOnTrivialChanges_spec by done.
  eexists. split; [done|].
  rewrite content_set_content
    by (done || by rewrite flip_pairs_length, content_length).
  split; [apply flip_pairs_Permutation|].
  split; [apply flip_pairs_ID|].
  apply ascending_fmap. symmetry. apply flip_pairs_ID.
Qed.

Lemma flipDuplicateTweetsOnTrivialChanges_permutation_witness :
  ∃ h',
    flipDuplicateTweetsOnTrivialChanges
      [[tweet 123 "a" 0 0; tweet 124 "b" 4 4; tweet 124 "b" 2 2]]
      (Slice 0 0 3 3) = Some h' ∧
    content h' (Slice 0 0 3 3) ≡ₚ
      [tweet 123 "a" 0 0; tweet 124 "b" 4 4; tweet 124 "b" 2 2] ∧
    ID <$> content h' (Slice 0 0 3 3) = [123; 124; 124]%Z ∧
    (ascending ID [tweet 123 "a" 0 0; tweet 124 "b" 4 4; tweet 124 "b" 2 2] →
     ascending ID (content h' (Slice 0 0 3 3))).
Proof.
  apply (flipDuplicateTweetsOnTrivialChanges_permutation
           [[tweet 123 "a" 0 0; tweet 124 "b" 4 4; tweet 124 "b" 2 2]]
           (Slice 0 0 3 3)).
  split; simpl; lia.
Defined.

(** C5. The output of mergeReadings and of mergeTweets holds no two
    elements of equal identifier and is strictly descending by
    identifier. *)
Theorem merge_output_descending
    (hr : heap Reading) (ht : heap Tweet)
    (apiReadings existingReadings apiTweets existingTweets : slice) :
  wf hr apiReadings → wf hr existingReadings →
  wf ht apiTweets → wf ht existingTweets →
  (∃ h' r,
     mergeReadings hr apiReadings existingReadings = Some (h', r) ∧
     NoDup (ReviewID <$> content h' r) ∧
     descending ReviewID (content h' r)) ∧
  (∃ h' r,
     mergeTweets ht apiTweets existingTweets = Some (h', r) ∧
     NoDup (ID <$> content h' r) ∧
     descending ID (content h' r)).
Proof.
  intros Hr1 Hr2 Ht1 Ht2. split.
  - destruct (mergeReadings_spec hr apiReadings existingReadings Hr1 Hr2)
      as (h' & r & Hrun & Hc & _).
    exists h', r. split; [done|]. rewrite Hc.
    split; [apply descending_NoDup|]; apply merged_readings_descending.
  - destruct (mergeTweets_spec ht apiTweets existingTweets Ht1)
      as (h' & r & Hrun & Hc & _); [by apply content_length|].
    exists h', r. split; [done|]. rewrite Hc.
    split; [apply descending_NoDup|]; apply merged_tweets_descending.
Qed.

Lemma merge_output_descending_witness :
  (∃ h' r,
     mergeReadings sample_readings sample_fresh sample_stored_readings
       = Some (h', r) ∧
     NoDup (ReviewID <$> content h' r) ∧
     descending ReviewID (content h' r)) ∧
  (∃ h' r,
     mergeTweets sample_tweets sample_fresh sample_stored = Some (h', r) ∧
     NoDup (ID <$> content h' r) ∧
     descending ID (content h' r)).
Proof.
  apply (merge_output_descending sample_readings sample_tweets
           sample_fresh sample_stored_readings sample_fresh sample_stored);
    split; simpl; lia.
Defined.

(** C3. Every identifier of the stored batch occurs in the output of
    mergeTweets: a tweet missing from the fresh batch is kept from the
    stored one. *)
Theorem mergeTweets_keeps_stored
    (h : heap Tweet) (apiTweets existingTweets : slice) :
  wf h apiTweets → wf h existingTweets →
  ∃ h' r,
    mergeTweets h apiTweets existingTweets = Some (h', r) ∧
    ∀ x, x ∈ content h existingTweets → ID x ∈ ID <$> content h' r.
Proof.
  intros Hf Hs.
  destruct (mergeTweets_spec h apiTweets existingTweets Hf)
    as (h' & r & Hrun & Hc & _); [by apply content_length|].
  exists h', r. split; [done|]. intros x Hx. rewrite Hc.
  apply merged_tweets_keys, elem_of_app. by right.
Qed.

Lemma mergeTweets_keeps_stored_witness :
  ∃ h' r,
    mergeTweets sample_tweets sample_fresh sample_stored = Some (h', r) ∧
    ∀ x, x ∈ content sample_tweets sample_stored →
         ID x ∈ ID <$> content h' r.
Proof.
  apply (mergeTweets_keeps_stored sample_tweets sample_fresh sample_stored);
    split; simpl; lia.
Defined.

(** After sliceKeepOnly has compacted [s], a cell read through any slice
    holds one of the elements kept, if it is one of the cells they were
    moved to, and its old value otherwise. *)
Lemma compaction_lookup {A} (h : heap A) s (R : list A) s' q :
  wf h s → length R ≤ len s →
  content (set_content h s (R ++ drop (length R) (content h s))) s' !! q =
    if decide (arr s = arr s' ∧ q < len s' ∧
               off s ≤ off s' + q < off s + length R)
    then R !! (off s' + q - off s)
    else content h s' !! q.
Proof.
  intros Hwf HR. pose proof (content_length h s Hwf) as Hc0.
  set (c1 := R ++ drop (length R) (content h s)).
  assert (length c1 = len s) as Hc1
    by (unfold c1; rewrite length_app, length_drop; lia).
  assert (arr s = arr s' →
          backing (set_content h s c1) s' !! (off s' + q) =
            if decide (off s ≤ off s' + q < off s + len s)
            then c1 !! (off s' + q - off s)
            else backing h s' !! (off s' + q)) as Hsame.
  { intros He. unfold backing at 1 2. rewrite <-He.
    fold (backing (set_content h s c1) s). fold (backing h s).
    rewrite backing_set_content by (done || lia).
    destruct Hwf as [Hlen Hoff].
    rewrite splice_lookup, Hc1 by lia. done. }
  destruct (decide (arr s = arr s' ∧ q < len s' ∧
                    off s ≤ off s' + q < off s + length R))
    as [(He & Hq & Hin)|Hn].
  - rewrite content_lookup.
    destruct (decide (q < len s')) as [_|?]; [|done].
    rewrite (Hsame He).
    destruct (decide (off s ≤ off s' + q < off s + len s)) as [_|?]; [|lia].
    unfold c1. rewrite lookup_app_l by lia. done.
  - rewrite !content_lookup.
    destruct (decide (q < len s')) as [Hq|Hq]; [|done].
    destruct (decide (arr s = arr s')) as [He|Hne].
    + rewrite (Hsame He).
      destruct (decide (off s ≤ off s' + q < off s + len s)) as [Hin|_];
        [|done].
      unfold c1. rewrite compact_lookup by lia.
      rewrite content_lookup.
      destruct (decide (off s' + q - off s < len s)) as [_|?]; [|lia].
      unfold backing. rewrite He. f_equal. lia.
    + unfold set_content. by rewrite backing_alter_ne.
Qed.

Lemma compaction_elem_of {A} (h : heap A) s (R : list A) s' x :
  wf h s → length R ≤ len s →
  x ∈ content (set_content h s (R ++ drop (length R) (content h s))) s' →
  x ∈ content h s' ∨ x ∈ R.
Proof.
  intros Hwf HR (q & Hq)%list_elem_of_lookup.
  rewrite compaction_lookup in Hq by done.
  case_decide; [right|left]; by apply list_elem_of_lookup_2 in Hq.
Qed.

(** Two slices of one array read a shared cell alike. *)
Lemma content_overlap {A} (h : heap A) s s' q j :
  arr s = arr s' → off s' + q = off s + j → q < len s' → j < len s →
  content h s' !! q = content h s !! j.
Proof.
  intros He Hp Hq Hj. rewrite !content_lookup, !decide_True by done.
  unfold backing. by rewrite He, Hp.
Qed.

Lemma filter_lookup_ge {A} (P : A → Prop) `{∀ x, Decision (P x)}
    (l : list A) j x :
  filter P l !! j = Some x → ∃ i, j ≤ i ∧ l !! i = Some x.
Proof.
  revert j. induction l as [|y l IH]; intros j Hj; [done|].
  rewrite filter_cons in Hj. case_decide.
  - destruct j as [|j]; simpl in Hj.
    + exists 0. split; [lia|]. by simplify_eq.
    + destruct (IH j Hj) as (i & Hi & Hx). exists (S i). split; [lia|done].
  - destruct (IH j Hj) as (i & Hi & Hx). exists (S i). split; [lia|done].
Qed.

Lemma filter_first {A} (P : A → Prop) `{∀ x, Decision (P x)}
    (l l' : list A) i x :
  l !! i = Some x → P x →
  (∀ j y, j < i → l !! j = Some y → ¬ P y) →
  take 1 (filter P (l ++ l')) = [x].
Proof.
  revert i. induction l as [|y l IH]; intros i Hi Hx Hbefore; [done|].
  destruct i as [|i]; simpl in Hi.
  - simplify_eq. simpl. rewrite filter_cons_True by done. done.
  - simpl. rewrite filter_cons_False by (by apply (Hbefore 0); [lia|]).
    apply (IH i); [done..|]. intros j z Hj Hz.
    apply (Hbefore (S j)); [lia|done].
Qed.

Lemma filter_only {A} (P : A → Prop) `{∀ x, Decision (P x)}
    (l : list A) a x :
  (∀ y, y ∈ l → P y → y = a) → x ∈ l → P x →
  take 1 (filter P l) = [a].
Proof.
  induction l as [|y l IH]; intros Hall Hx HP.
  - by apply elem_of_nil in Hx.
  - rewrite filter_cons. case_decide as Hy.
    + simpl. f_equal. apply Hall; [by left|done].
    + apply elem_of_cons in Hx as [->|Hx]; [done|].
      apply IH; [|done..]. intros z Hz. apply Hall. by right.
Qed.

Section fresh_first.
Context {A K : Type} `{Countable K}.
Variable key : A → K.

Lemma NoDup_key_lookup (l : list A) i j x y :
  NoDup (key <$> l) → l !! i = Some x → l !! j = Some y →
  key x = key y → i = j.
Proof.
  intros Hnd Hi Hj Hk. apply (NoDup_lookup (key <$> l) i j (key x) Hnd).
  - by rewrite list_lookup_fmap, Hi.
  - by rewrite list_lookup_fmap, Hj, Hk.
Qed.

Lemma NoDup_key_eq (l : list A) x y :
  NoDup (key <$> l) → x ∈ l → y ∈ l → key x = key y → x = y.
Proof.
  intros Hnd (i & Hi)%list_elem_of_lookup (j & Hj)%list_elem_of_lookup Hk.
  assert (i = j) by (by eapply NoDup_key_lookup). by simplify_eq.
Qed.

(** After the stored slice was compacted, possibly over cells of the fresh
    one, the first element of a key present in both, read through the
    fresh slice and then the kept elements, still is the fresh one. *)
Lemma fresh_first_after_compaction (h : heap A) fresh stored f s :
  wf h fresh → wf h stored →
  NoDup (key <$> content h fresh) → NoDup (key <$> content h stored) →
  f ∈ content h fresh → s ∈ content h stored → key f = key s →
  let kept :=
    filter (λ x, key x ∈ key <$> content h fresh) (content h stored) in
  let h1 :=
    set_content h stored (kept ++ drop (length kept) (content h stored)) in
  take 1 (filter (λ x, key x = key s) (content h1 fresh ++ kept)) = [f].
Proof.
  intros Hwf Hws Hnf Hns Hf Hs Hk kept h1.
  pose proof (content_length h stored Hws) as Hc0.
  pose proof (content_length h fresh Hwf) as Hcf.
  assert (length kept ≤ len stored) as Hkl
    by (rewrite <-Hc0; apply length_filter).
  assert (∀ x, x ∈ kept → x ∈ content h stored) as Hkept_in.
  { intros x Hx. unfold kept in Hx.
    by apply list_elem_of_filter in Hx as [_ ?]. }
  assert (s ∈ kept) as Hskept.
  { unfold kept. apply list_elem_of_filter. split; [|done].
    rewrite <-Hk. by apply list_elem_of_fmap_2. }
  apply list_elem_of_lookup in Hf as (qf & Hqf).
  pose proof (lookup_lt_Some _ _ _ Hqf) as Hqf_lt. rewrite Hcf in Hqf_lt.
  destruct (decide (arr stored = arr fresh ∧
                    off stored ≤ off fresh + qf < off stored + len stored))
    as [(He & Hin)|Hout].
  - (* the cell of [f] is a cell of the stored slice: [f] is [s] *)
    assert (f ∈ content h stored) as Hfst.
    { apply (list_elem_of_lookup_2 _ (off fresh + qf - off stored)).
      rewrite <-Hqf. symmetry. apply content_overlap; (done || lia). }
    assert (s = f) as ->
      by (by apply (NoDup_key_eq (content h stored))).
    apply (filter_only _ _ f f); [|set_solver|done].
    intros y [Hy|Hy]%elem_of_app Hyk.
    + apply compaction_elem_of in Hy as [Hy|Hy]; [| |done..].
      * apply (NoDup_key_eq (content h fresh)); [done..| |done].
        apply list_elem_of_lookup. by exists qf.
      * apply (NoDup_key_eq (content h stored)); auto.
    + apply (NoDup_key_eq (content h stored)); auto.
  - apply (filter_first _ _ _ qf); [|done|].
    + unfold h1. rewrite compaction_lookup by done.
      destruct (decide (arr stored = arr fresh ∧ qf < len fresh ∧
                  off stored ≤ off fresh + qf < off stored + length kept))
        as [(He & _ & Hin)|_]; [|done].
      exfalso. apply Hout. split; [done|lia].
    + intros q y Hq Hy Hyk. unfold h1 in Hy.
      rewrite compaction_lookup in Hy by done.
      destruct (decide (arr stored = arr fresh ∧ q < len fresh ∧
                  off stored ≤ off fresh + q < off stored + length kept))
        as [(He & Hqlen & Hin)|_].
      * assert (y = s) as ->.
        { apply (NoDup_key_eq (content h stored)); [done| |done..].
          apply Hkept_in. by apply list_elem_of_lookup_2 in Hy. }
        apply filter_lookup_ge in Hy as (i & Hi & Hsi).
        pose proof (lookup_lt_Some _ _ _ Hsi) as Hilt. rewrite Hc0 in Hilt.
        assert (off stored + len stored ≤ off fresh + qf) as Hafter
          by (destruct (decide (off fresh + qf < off stored + len stored));
              [exfalso; apply Hout; split; [done|lia]|lia]).
        assert (content h fresh !! (off stored + i - off fresh) = Some s)
          as Hsf.
        { rewrite <-Hsi. apply content_overlap; (done || lia). }
        assert (off stored + i - off fresh = qf)
          by (by eapply (NoDup_key_lookup (content h fresh))).
        lia.
      * assert (q = qf) by (by eapply (NoDup_key_lookup (content h fresh));
                              [| | |rewrite Hyk, Hk]).
        lia.
Qed.
End fresh_first.

(** C2. A stored reading whose review identifier is not among those of the
    fresh batch is absent from the output of mergeReadings, as is its
    identifier. *)
Theorem mergeReadings_drops_deleted
    (h : heap Reading) (apiReadings existingReadings : slice) :
  wf h apiReadings → wf h existingReadings →
  ∃ h' r,
    mergeReadings h apiReadings existingReadings = Some (h', r) ∧
    ∀ x, x ∈ content h existingReadings →
         ReviewID x ∉ (ReviewID <$> content h apiReadings) →
         (x ∉ content h' r) ∧ (ReviewID x ∉ ReviewID <$> content h' r).
Proof.
  intros Hf Hs.
  destruct (mergeReadings_spec h apiReadings existingReadings Hf Hs)
    as (h' & r & Hrun & Hc & _).
  exists h', r. split; [done|]. intros x Hx Hdel.
  assert (∀ y, y ∈ content h' r →
               ReviewID y ∈ ReviewID <$> content h apiReadings) as Hout.
  { intros y Hy. rewrite Hc in Hy.
    assert (∀ z, z ∈ kept_readings (content h apiReadings)
                       (content h existingReadings) →
                 ReviewID z ∈ ReviewID <$> content h apiReadings) as Hkept.
    { intros z Hz. unfold kept_readings in Hz.
      by apply list_elem_of_filter in Hz as [? _]. }
    apply merged_readings_elem_of in Hy as [Hy|Hy]; [|by apply Hkept].
    apply compaction_elem_of in Hy as [Hy|Hy]; [| |done|].
    - by apply list_elem_of_fmap_2.
    - by apply Hkept.
    - rewrite <-(content_length h existingReadings) by done.
      apply length_filter. }
  split.
  - intros Hin. by apply Hdel, Hout.
  - intros (y & Hy & Hin)%list_elem_of_fmap. apply Hdel.
    rewrite Hy. by apply Hout.
Qed.

Lemma mergeReadings_drops_deleted_witness :
  ∃ h' r,
    mergeReadings sample_readings sample_fresh sample_stored_readings
      = Some (h', r) ∧
    ∀ x, x ∈ content sample_readings sample_stored_readings →
         ReviewID x ∉ (ReviewID <$> content sample_readings sample_fresh) →
         (x ∉ content h' r) ∧ (ReviewID x ∉ ReviewID <$> content h' r).
Proof.
  apply (mergeReadings_drops_deleted sample_readings sample_fresh
           sample_stored_readings); split; simpl; lia.
Defined.

(** C4. For two reading batches free of duplicate review identifiers and
    a review identifier present in both: the only entry of that identifier
    in the output of mergeReadings is the entry of the fresh batch. *)
Theorem mergeReadings_prefers_fresh
    (h : heap Reading) (apiReadings existingReadings : slice)
    (f s : Reading) :
  wf h apiReadings → wf h existingReadings →
  NoDup (ReviewID <$> content h apiReadings) →
  NoDup (ReviewID <$> content h existingReadings) →
  f ∈ content h apiReadings → s ∈ content h existingReadings →
  ReviewID f = ReviewID s →
  ∃ h' r,
    mergeReadings h apiReadings existingReadings = Some (h', r) ∧
    filter (λ x, ReviewID x = ReviewID s) (content h' r) = [f] ∧
    ∀ x, x ∈ content h' r → ReviewID x = ReviewID s → x = f.
Proof.
  intros Hf Hs Hnf Hns Hfin Hsin Hid.
  destruct (mergeReadings_spec h apiReadings existingReadings Hf Hs)
    as (h' & r & Hrun & Hc & _).
  exists h', r. split; [done|].
  assert (filter (λ x, ReviewID x = ReviewID s) (content h' r) = [f])
    as Hfilter.
  { rewrite Hc, merged_readings_filter.
    by apply (fresh_first_after_compaction ReviewID). }
  split; [done|]. intros x Hx Hxs.
  assert (x ∈ filter (λ x, ReviewID x = ReviewID s) (content h' r)) as Hin
    by (by apply list_elem_of_filter).
  rewrite Hfilter in Hin. by apply list_elem_of_singleton in Hin.
Qed.

Lemma mergeReadings_prefers_fresh_witness :
  ∃ h' r,
    mergeReadings sample_readings sample_fresh sample_stored_readings
      = Some (h', r) ∧
    filter (λ x, ReviewID x = ReviewID (reading 125 "old")) (content h' r)
      = [reading 125 "new"] ∧
    ∀ x, x ∈ content h' r → ReviewID x = ReviewID (reading 125 "old") →
         x = reading 125 "new".
Proof.
  apply (mergeReadings_prefers_fresh sample_readings sample_fresh
           sample_stored_readings (reading 125 "new") (reading 125 "old")).
  - split; simpl; lia.
  - split; simpl; lia.
  - apply (bool_decide_unpack _). vm_compute. reflexivity.
  - apply (bool_decide_unpack _). vm_compute. reflexivity.
  - apply (bool_decide_unpack _). vm_compute. reflexivity.
  - apply (bool_decide_unpack _). vm_compute. reflexivity.
  - reflexivity.
Defined.

(** C1. For two tweet batches free of duplicate identifiers and an
    identifier present in both, the output of mergeTweets holds exactly one
    entry of that identifier: the stored entry exactly when the two have
    equal text, deeply equal entities and both counter differences below 3,
    and the fresh entry in every other case.  This holds with the
    differences as the code computes them on Go ints, for all counters, and
    with the absolute differences of the integers for counters that are
    counts. *)
Theorem mergeTweets_prefers_stored_on_noise
    (h : heap Tweet) (apiTweets existingTweets : slice) (f s : Tweet) :
  wf h apiTweets → wf h existingTweets →
  NoDup (ID <$> content h apiTweets) →
  NoDup (ID <$> content h existingTweets) →
  f ∈ content h apiTweets → s ∈ content h existingTweets →
  ID f = ID s →
  ∃ h' r t,
    mergeTweets h apiTweets existingTweets = Some (h', r) ∧
    filter (λ x, ID x = ID s) (content h' r) = [t] ∧
    ((t = s ↔ noise_only f s) ∧ (¬ noise_only f s → t = f)) ∧
    (counts f → counts s →
     (t = s ↔ noise_only_exact f s) ∧ (¬ noise_only_exact f s → t = f)).
Proof.
  intros Hf Hs Hnf Hns Hfin Hsin Hid.
  destruct (mergeTweets_spec h apiTweets existingTweets Hf)
    as (h' & r & Hrun & Hc & _); [by apply content_length|].
  exists h', r, (if decide (trivial_change f s) then s else f).
  split; [done|]. split.
  { rewrite Hc, <-Hid. by apply merged_tweets_filter. }
  assert (((if decide (trivial_change f s) then s else f) = s
           ↔ noise_only f s) ∧
          (¬ noise_only f s →
           (if decide (trivial_change f s) then s else f) = f)) as Hcode.
  { split.
    - case_decide as Ht.
      + split; [intros _; by destruct Ht|done].
      + split; [|intros Hn; by destruct Ht].
        intros ->. apply noise_only_refl.
    - intros Hn. rewrite decide_False; [done|]. by intros [_ ?]. }
  split; [done|]. intros Hcf Hcs.
  by rewrite <-(noise_only_counts f s Hcf Hcs).
Qed.

Lemma mergeTweets_prefers_stored_on_noise_witness :
  ∃ h' r t,
    mergeTweets sample_tweets sample_fresh sample_stored = Some (h', r) ∧
    filter (λ x, ID x = ID (tweet 124 "sX 124" 2 2)) (content h' r) = [t] ∧
    ((t = tweet 124 "sX 124" 2 2 ↔
      noise_only (tweet 124 "sX 124" 4 4) (tweet 124 "sX 124" 2 2)) ∧
     (¬ noise_only (tweet 124 "sX 124" 4 4) (tweet 124 "sX 124" 2 2) →
      t = tweet 124 "sX 124" 4 4)) ∧
    (counts (tweet 124 "sX 124" 4 4) → counts (tweet 124 "sX 124" 2 2) →
     (t = tweet 124 "sX 124" 2 2 ↔
      noise_only_exact (tweet 124 "sX 124" 4 4) (tweet 124 "sX 124" 2 2)) ∧
     (¬ noise_only_exact (tweet 124 "sX 124" 4 4) (tweet 124 "sX 124" 2 2) →
      t = tweet 124 "sX 124" 4 4)).
Proof.
  apply (mergeTweets_prefers_stored_on_noise sample_tweets sample_fresh
           sample_stored (tweet 124 "sX 124" 4 4) (tweet 124 "sX 124" 2 2)).
  - split; simpl; lia.
  - split; simpl; lia.
  - apply (bool_decide_unpack _). vm_compute. reflexivity.
  - apply (bool_decide_unpack _). vm_compute. reflexivity.
  - apply (bool_decide_unpack _). vm_compute. reflexivity.
  - apply (bool_decide_unpack _). vm_compute. reflexivity.
  - reflexivity.
Defined.

(** C6. Merging an output of mergeTweets with an empty stored batch returns
    the same sequence, in the same order. *)
Theorem mergeTweets_idempotent
    (h : heap Tweet) (apiTweets existingTweets : slice)
    (h1 : heap Tweet) (merged empty : slice) :
  wf h apiTweets → wf h existingTweets →
  mergeTweets h apiTweets existingTweets = Some (h1, merged) →
  len empty = 0 →
  ∃ h2 r,
    mergeTweets h1 merged empty = Some (h2, r) ∧
    content h2 r = content h1 merged.
Proof.
  intros Hf Hs Hrun Hempty.
  destruct (mergeTweets_spec h apiTweets existingTweets Hf)
    as (h1' & merged' & Hrun' & Hc & Hwf & _); [by apply content_length|].
  rewrite Hrun in Hrun'. simplify_eq.
  assert (content h1' empty = []) as Hnil
    by (unfold content; by rewrite Hempty).
  destruct (mergeTweets_spec h1' merged' empty Hwf)
    as (h2 & r & Hrun2 & Hc2 & _); [by rewrite Hnil|].
  exists h2, r. split; [done|].
  rewrite Hc2, Hnil. apply merged_tweets_idem.
  rewrite Hc. apply merged_tweets_descending.
Qed.

Lemma mergeTweets_idempotent_witness :
  ∃ h2 r,
    mergeTweets sample_merged_heap sample_merged_slice nil_slice
      = Some (h2, r) ∧
    content h2 r = content sample_merged_heap sample_merged_slice.
Proof.
  apply (mergeTweets_idempotent sample_tweets sample_fresh sample_stored
           sample_merged_heap sample_merged_slice nil_slice).
  - split; simpl; lia.
  - split; simpl; lia.
  - vm_compute. reflexivity.
  - reflexivity.
Defined.

(** C7, as it stands, fails: on the batches of the RemoveOld test,
    mergeReadings leaves the caller's stored collection with its third
    reading copied over the second. *)
Lemma mergeReadings_overwrites_stored :
  ∃ h' r,
    mergeReadings sample_readings sample_fresh sample_stored_readings
      = Some (h', r) ∧
    content sample_readings sample_stored_readings =
      [reading 125 "old"; reading 124 "s2 124"; reading 123 "s2 123"] ∧
    content h' sample_stored_readings =
      [reading 125 "old"; reading 123 "s2 123"; reading 123 "s2 123"] ∧
    content h' sample_stored_readings ≠
      content sample_readings sample_stored_readings.
Proof.
  vm_compute. eexists _, _. split; [reflexivity|].
  split; [reflexivity|]. split; [reflexivity|]. discriminate.
Qed.

(** C7, amended.  For batches that share no cell: mergeTweets leaves the
    stored collection as it was; mergeReadings leaves in it the readings
    sliceKeepOnly kept, moved to the front, followed by the old values of
    the remaining cells, so the collection is unchanged when the review
    identifier of every stored reading occurs in the fresh batch. *)
Theorem merge_effect_on_stored
    (hr : heap Reading) (ht : heap Tweet)
    (apiReadings existingReadings apiTweets existingTweets : slice) :
  wf hr apiReadings → wf hr existingReadings →
  wf ht apiTweets → wf ht existingTweets →
  separate apiReadings existingReadings →
  separate apiTweets existingTweets →
  (∃ h' r,
     mergeTweets ht apiTweets existingTweets = Some (h', r) ∧
     content h' existingTweets = content ht existingTweets) ∧
  (∃ h' r,
     mergeReadings hr apiReadings existingReadings = Some (h', r) ∧
     let kept := kept_readings (content hr apiReadings)
                   (content hr existingReadings) in
     content h' existingReadings =
       kept ++ drop (length kept) (content hr existingReadings) ∧
     ((∀ x, x ∈ content hr existingReadings →
            ReviewID x ∈ ReviewID <$> content hr apiReadings) →
      content h' existingReadings = content hr existingReadings)).
Proof.
  intros Hr1 Hr2 Ht1 Ht2 Hsepr Hsept. split.
  - destruct (mergeTweets_spec ht apiTweets existingTweets Ht1)
      as (h' & r & Hrun & _ & _ & _ & Hframe); [by apply content_length|].
    exists h', r. split; [done|]. by apply Hframe.
  - destruct (mergeReadings_spec hr apiReadings existingReadings Hr1 Hr2)
      as (h' & r & Hrun & _ & _ & _ & Hframe).
    exists h', r. split; [done|]. simpl.
    pose proof (content_length hr existingReadings Hr2) as Hc0.
    assert (length (kept_readings (content hr apiReadings)
                      (content hr existingReadings)) ≤ len existingReadings)
      as Hk by (rewrite <-Hc0; apply length_filter).
    rewrite Hframe by done.
    rewrite content_set_content
      by (done || rewrite length_app, length_drop; lia).
    split; [done|]. intros Hall.
    rewrite kept_readings_all by done.
    by rewrite drop_all, app_nil_r.
Qed.

Lemma merge_effect_on_stored_witness :
  (∃ h' r,
     mergeTweets sample_tweets sample_fresh sample_stored = Some (h', r) ∧
     content h' sample_stored = content sample_tweets sample_stored) ∧
  (∃ h' r,
     mergeReadings sample_readings sample_fresh sample_stored_readings
       = Some (h', r) ∧
     let kept := kept_readings (content sample_readings sample_fresh)
                   (content sample_readings sample_stored_readings) in
     content h' sample_stored_readings =
       kept ++
       drop (length kept) (content sample_readings sample_stored_readings) ∧
     ((∀ x, x ∈ content sample_readings sample_stored_readings →
            ReviewID x ∈ ReviewID <$> content sample_readings sample_fresh) →
      content h' sample_stored_readings =
        content sample_readings sample_stored_readings)).
Proof.
  apply (merge_effect_on_stored sample_readings sample_tweets
           sample_fresh sample_stored_readings sample_fresh sample_stored).
  - split; simpl; lia.
  - split; simpl; lia.
  - split; simpl; lia.
  - split; simpl; lia.
  - left. simpl. lia.
  - left. simpl. lia.
Defined.

(** ** The project's tests, run on the model *)

Example TestMergeReadings_RemoveOld :
  (λ '(h, r), content h r) <$>
    mergeReadings sample_readings sample_fresh sample_stored_readings =
  Some [reading 125 "new"; reading 123 "s1 123"].
Proof. vm_compute. reflexivity. Qed.

Example TestMergeTweets_OldPreferredOnTrivialChanges :
  (λ '(h, r), content h r) <$>
    mergeTweets sample_tweets sample_fresh sample_stored =
  Some [tweet 125 "s1 125" 0 0; tweet 124 "sX 124" 2 2;
        tweet 123 "s2 123" 0 0].
Proof. vm_compute. reflexivity. Qed.

Example TestMergeTweets_NewPreferredOnNonTrivialChangesDec :
  (λ '(h, r), content h r) <$>
    mergeTweets
      [ [tweet 125 "s1 125" 0 0; tweet 124 "sX 124" 2 2];
        [tweet 124 "sX 124" 10 10; tweet 123 "s2 123" 0 0] ]
      sample_fresh sample_stored =
  Some [tweet 125 "s1 125" 0 0; tweet 124 "sX 124" 2 2;
        tweet 123 "s2 123" 0 0].
Proof. vm_compute. reflexivity. Qed.

Example TestMergeTweets_Standard :
  (λ '(h, r), content h r) <$>
    mergeTweets
      [ [tweet 125 "s1 125" 0 0; tweet 124 "s1 124" 0 0;
         tweet 122 "s1 122" 0 0];
        [tweet 124 "s2 124" 0 0; tweet 123 "s2 123" 0 0;
         tweet 121 "s2 121" 0 0] ]
      (Slice 0 0 3 3) (Slice 1 0 3 3) =
  Some [tweet 125 "s1 125" 0 0; tweet 124 "s1 124" 0 0;
        tweet 123 "s2 123" 0 0; tweet 122 "s1 122" 0 0;
        tweet 121 "s2 121" 0 0].
Proof. vm_compute. reflexivity. Qed.

(** A fresh batch with spare capacity is extended and reordered in its own
    backing array by append and the sort. *)
Example mergeTweets_reuses_fresh_array :
  mergeTweets
    [ [tweet 2 "b" 0 0; tweet 1 "a" 0 0; tweet 0 "" 0 0];
      [tweet 3 "c" 0 0] ]
    (Slice 0 0 2 3) (Slice 1 0 1 1) =
  Some ([ [tweet 3 "c" 0 0; tweet 2 "b" 0 0; tweet 1 "a" 0 0];
          [tweet 3 "c" 0 0] ],
        Slice 0 0 3 3).
Proof. vm_compute. reflexivity. Qed.

(** Outside the counts the difference of two Go ints wraps around. *)
Example delta_wraps : delta int_max (-1) = int_min.
Proof. vm_compute. reflexivity. Qed.

(** * Further properties of the code *)

(** ** Heap facts used below *)

Lemma splice_prefix {A} o (c1 c1' c2 a : list A) :
  o + length (c1 ++ c2) ≤ length a → length c1' = length c1 →
  splice o c1' (splice o (c1 ++ c2) a) = splice o (c1' ++ c2) a.
Proof.
  intros Hle Hlen. rewrite length_app in Hle. apply list_eq. intros q.
  assert (length (splice o (c1 ++ c2) a) = length a) as Hs
    by (apply splice_length; rewrite length_app; lia).
  rewrite (splice_lookup o c1') by lia.
  rewrite (splice_lookup o (c1 ++ c2)) by (rewrite length_app; lia).
  rewrite (splice_lookup o (c1' ++ c2)) by (rewrite length_app; lia).
  rewrite !length_app.
  destruct (decide (o ≤ q < o + length c1')) as [Hq|Hq].
  - rewrite decide_True by lia. by rewrite lookup_app_l by lia.
  - destruct (decide (o ≤ q < o + (length c1 + length c2))) as [Hq2|Hq2].
    + rewrite decide_True by lia.
      rewrite !lookup_app_r by lia. f_equal. lia.
    + by rewrite decide_False by lia.
Qed.

(** Writing a prefix over a window written before. *)
Lemma set_content_prefix {A} (h : heap A) s (c1 c1' c2 : list A) :
  wf h s → length (c1 ++ c2) ≤ len s → length c1' = length c1 →
  set_content (set_content h s (c1 ++ c2)) s c1' =
    set_content h s (c1' ++ c2).
Proof.
  intros [Hlen Hcap] Hc Hc'. unfold set_content.
  rewrite list_alter_alter_eq. apply list_alter_ext; [|done].
  intros a Ha. unfold backing in Hcap. rewrite Ha in Hcap.
  simpl in *. apply splice_prefix; lia.
Qed.

Lemma set_content_again {A} (h : heap A) s (c c' : list A) :
  wf h s → length c ≤ len s → length c' = length c →
  set_content (set_content h s c) s c' = set_content h s c'.
Proof.
  intros Hwf Hc Hc'.
  rewrite <-(app_nil_r c), <-(app_nil_r c').
  rewrite set_content_prefix; rewrite ?app_nil_r; done.
Qed.

Lemma set_content_length {A} (h : heap A) s (c : list A) :
  length (set_content h s c) = length h.
Proof. apply length_alter. Qed.

Lemma reslice_len s : reslice s (len s) = s.
Proof. by destruct s. Qed.

(** ** absInt and the counter difference *)

Lemma wrap_range z : (int_min ≤ wrap z ≤ int_max)%Z.
Proof.
  unfold wrap, int_min, int_max.
  pose proof (Z.mod_pos_bound (z + 2 ^ 63) (2 ^ 64)) as Hm. lia.
Qed.

Lemma wrap_opp z :
  wrap (- z) = if decide (wrap z = int_min) then int_min else (- wrap z)%Z.
Proof.
  unfold wrap, int_min.
  pose proof (Z.div_mod (z + 2 ^ 63) (2 ^ 64)) as Hdm.
  pose proof (Z.mod_pos_bound (z + 2 ^ 63) (2 ^ 64)) as Hm.
  set (q := ((z + 2 ^ 63) / 2 ^ 64)%Z) in *.
  set (r := ((z + 2 ^ 63) mod 2 ^ 64)%Z) in *.
  assert (z = 2 ^ 64 * q + r - 2 ^ 63)%Z as Hz by lia.
  case_decide as Hr.
  - assert (r = 0)%Z by lia.
    assert (- z + 2 ^ 63 = 0 + (1 - q) * 2 ^ 64)%Z as -> by lia.
    rewrite Z_mod_plus_full. reflexivity.
  - assert (- z + 2 ^ 63 = (2 ^ 64 - r) + (- q) * 2 ^ 64)%Z as -> by lia.
    rewrite Z_mod_plus_full, Z.mod_small by lia. lia.
Qed.

(** X1. absInt returns the absolute value of every int but the least one,
    which it returns unchanged (its negation wraps around): that is its
    only negative result. *)
Theorem absInt_abs (x : Z) :
  (int_min ≤ x ≤ int_max)%Z →
  absInt x = (if decide (x = int_min) then int_min else Z.abs x) ∧
  ((absInt x < 0)%Z ↔ x = int_min).
Proof.
  intros Hx. unfold absInt, int_neg.
  assert (wrap (- int_min) = int_min) as Hmin by reflexivity.
  destruct (decide (x = int_min)) as [->|Hne].
  - rewrite decide_True by (unfold int_min; lia). rewrite Hmin.
    split; [done|]. unfold int_min. split; [done|lia].
  - destruct (decide (x < 0)%Z) as [Hneg|Hpos].
    + rewrite wrap_id by (unfold int_min, int_max in *; lia).
      split; [lia|]. split; [lia|done].
    + split; [lia|]. split; [lia|done].
Qed.

Lemma absInt_abs_witness :
  absInt (-7) =
    (if decide ((-7)%Z = int_min) then int_min else Z.abs (-7)) ∧
  ((absInt (-7) < 0)%Z ↔ (-7)%Z = int_min).
Proof.
  apply (absInt_abs (-7)). unfold int_min, int_max. lia.
Defined.

Lemma delta_sym x y : delta x y = delta y x.
Proof.
  unfold delta, int_sub.
  replace (y - x)%Z with (- (x - y))%Z by lia.
  rewrite wrap_opp. case_decide as Hw; [by rewrite Hw|].
  pose proof (wrap_range (x - y)) as Hr.
  destruct (absInt_abs (wrap (x - y)) Hr) as [-> _].
  destruct (absInt_abs (- wrap (x - y))) as [-> _];
    [unfold int_min, int_max in *; lia|].
  rewrite decide_False by done.
  rewrite decide_False by (unfold int_min, int_max in *; lia). lia.
Qed.

Lemma trivial_change_sym x y : trivial_change x y → trivial_change y x.
Proof.
  unfold trivial_change, noise_only.
  rewrite (delta_sym (FavoriteCount y)), (delta_sym (RetweetCount y)).
  naive_solver.
Qed.

(** X2. The test of flipDuplicateTweetsOnTrivialChanges does not depend on
    which of the two tweets comes first, also where the counter difference
    overflows: on a slice of two tweets a second run of the pass undoes the
    first and gives back the heap as it was. *)
Theorem flipDuplicateTweetsOnTrivialChanges_pair_involutive
    (h : heap Tweet) (tweets : slice) :
  wf h tweets → len tweets = 2 →
  ∃ h1,
    flipDuplicateTweetsOnTrivialChanges h tweets = Some h1 ∧
    flipDuplicateTweetsOnTrivialChanges h1 tweets = Some h.
Proof.
  intros Hwf Hlen. pose proof (content_length h tweets Hwf) as Hc.
  rewrite flipDuplicateTweetsOnTrivialChanges_spec by done.
  eexists. split; [done|].
  destruct (content h tweets) as [|x [|y [|z l]]] eqn:Hcont;
    simpl in Hc; try lia.
  set (c1 := flip_pairs [x; y]).
  assert (length c1 = len tweets) as Hc1
    by (unfold c1; rewrite flip_pairs_length; simpl; lia).
  assert (flip_pairs c1 = [x; y]) as Hback.
  { unfold c1. simpl.
    destruct (decide (trivial_change x y)) as [Ht|Ht]; simpl.
    - destruct (decide (trivial_change y x)) as [_|Hn]; [done|].
      exfalso. by apply Hn, trivial_change_sym.
    - destruct (decide (trivial_change x y)) as [?|_]; done. }
  rewrite flipDuplicateTweetsOnTrivialChanges_spec
    by (apply wf_set_content; (done || lia)).
  rewrite content_set_content by done.
  rewrite set_content_again
    by (done || lia || by rewrite flip_pairs_length).
  by rewrite Hback, <-Hcont, set_content_id.
Qed.

Lemma flipDuplicateTweetsOnTrivialChanges_pair_involutive_witness :
  ∃ h1,
    flipDuplicateTweetsOnTrivialChanges
      [[tweet 124 "sX 124" 4 4; tweet 124 "sX 124" 2 2]] (Slice 0 0 2 2)
      = Some h1 ∧
    flipDuplicateTweetsOnTrivialChanges h1 (Slice 0 0 2 2) =
      Some [[tweet 124 "sX 124" 4 4; tweet 124 "sX 124" 2 2]].
Proof.
  apply (flipDuplicateTweetsOnTrivialChanges_pair_involutive
           [[tweet 124 "sX 124" 4 4; tweet 124 "sX 124" 2 2]]
           (Slice 0 0 2 2)).
  - split; simpl; lia.
  - reflexivity.
Defined.

Lemma flip_from_rotate x l :
  Forall (trivial_change x) l → flip_from x l = l ++ [x].
Proof.
  induction 1 as [|y l Hy Hl IH]; simpl; [done|].
  by rewrite decide_True, IH by done.
Qed.

(** X3. With more than two observations of a tweet the pass does not pick
    one pair: when every later element of the slice is a trivial change of
    the first, the first is carried to the end and the others move up one
    cell. *)
Theorem flipDuplicateTweetsOnTrivialChanges_rotates
    (h : heap Tweet) (tweets : slice) (x : Tweet) (l : list Tweet) :
  wf h tweets → content h tweets = x :: l →
  Forall (trivial_change x) l →
  ∃ h',
    flipDuplicateTweetsOnTrivialChanges h tweets = Some h' ∧
    content h' tweets = l ++ [x].
Proof.
  intros Hwf Hc Hall. pose proof (content_length h tweets Hwf) as Hlen.
  rewrite flipDuplicateTweetsOnTrivialChanges_spec by done.
  eexists. split; [done|].
  rewrite content_set_content
    by (done || (rewrite flip_pairs_length; lia)).
  rewrite Hc. simpl. by apply flip_from_rotate.
Qed.

Lemma flipDuplicateTweetsOnTrivialChanges_rotates_witness :
  ∃ h',
    flipDuplicateTweetsOnTrivialChanges
      [[tweet 7 "t" 3 3; tweet 7 "t" 2 2; tweet 7 "t" 1 1]] (Slice 0 0 3 3)
      = Some h' ∧
    content h' (Slice 0 0 3 3) =
      [tweet 7 "t" 2 2; tweet 7 "t" 1 1] ++ [tweet 7 "t" 3 3].
Proof.
  apply (flipDuplicateTweetsOnTrivialChanges_rotates
           [[tweet 7 "t" 3 3; tweet 7 "t" 2 2; tweet 7 "t" 1 1]]
           (Slice 0 0 3 3)).
  - split; simpl; lia.
  - reflexivity.
  - repeat constructor; vm_compute; intros; discriminate.
Defined.

(** X4. On a slice whose identifiers are pairwise distinct, in particular
    on an empty or one-element slice, the pass writes nothing: it returns
    the heap it was given. *)
Theorem flipDuplicateTweetsOnTrivialChanges_distinct
    (h : heap Tweet) (tweets : slice) :
  wf h tweets → NoDup (ID <$> content h tweets) →
  flipDuplicateTweetsOnTrivialChanges h tweets = Some h.
Proof.
  intros Hwf Hnd.
  rewrite flipDuplicateTweetsOnTrivialChanges_spec by done.
  by rewrite flip_pairs_id, set_content_id.
Qed.

Lemma flipDuplicateTweetsOnTrivialChanges_distinct_witness :
  flipDuplicateTweetsOnTrivialChanges sample_tweets sample_fresh
    = Some sample_tweets.
Proof.
  apply (flipDuplicateTweetsOnTrivialChanges_distinct
           sample_tweets sample_fresh).
  - split; simpl; lia.
  - apply (bool_decide_unpack _). vm_compute. reflexivity.
Defined.

(** X5. The pass writes only into the cells of its slice: it allocates no
    array, and every slice that shares no cell with it reads as before. *)
Theorem flipDuplicateTweetsOnTrivialChanges_frame
    (h : heap Tweet) (tweets : slice) :
  wf h tweets →
  ∃ h',
    flipDuplicateTweetsOnTrivialChanges h tweets = Some h' ∧
    length h' = length h ∧
    ∀ s', apart tweets s' → content h' s' = content h s'.
Proof.
  intros Hwf. pose proof (content_length h tweets Hwf) as Hlen.
  rewrite flipDuplicateTweetsOnTrivialChanges_spec by done.
  eexists. split; [done|]. split; [apply set_content_length|].
  intros s' Hap. unfold apart in Hap.
  apply content_set_content_frame; [done| |];
    rewrite flip_pairs_length; lia.
Qed.

Lemma flipDuplicateTweetsOnTrivialChanges_frame_witness :
  ∃ h',
    flipDuplicateTweetsOnTrivialChanges sample_tweets sample_stored
      = Some h' ∧
    length h' = length sample_tweets ∧
    ∀ s', apart sample_stored s' →
          content h' s' = content sample_tweets s'.
Proof.
  apply (flipDuplicateTweetsOnTrivialChanges_frame
           sample_tweets sample_stored).
  split; simpl; lia.
Defined.

(** ** The slice helpers *)

(** X6. sliceReverse leaves the reversed sequence in the slice, writes no
    cell outside it, and a second call gives back the heap as it was. *)
Theorem sliceReverse_in_place {A : Type} (h : heap A) (s : slice) :
  wf h s →
  ∃ h',
    sliceReverse h s = Some h' ∧
    content h' s = reverse (content h s) ∧
    (∀ s', apart s s' → content h' s' = content h s') ∧
    sliceReverse h' s = Some h.
Proof.
  intros Hwf. pose proof (content_length h s Hwf) as Hlen.
  rewrite sliceReverse_spec by done. eexists. split; [done|].
  assert (length (reverse (content h s)) = len s) as Hr
    by (by rewrite length_reverse).
  rewrite content_set_content by done. split; [done|]. split.
  - intros s' Hap. unfold apart in Hap.
    apply content_set_content_frame; [done|lia|lia].
  - rewrite sliceReverse_spec by (apply wf_set_content; (done || lia)).
    rewrite content_set_content by done.
    rewrite set_content_again
      by (done || lia || by rewrite !length_reverse).
    by rewrite reverse_involutive, set_content_id.
Qed.

Lemma sliceReverse_in_place_witness :
  ∃ h',
    sliceReverse sample_readings sample_stored_readings = Some h' ∧
    content h' sample_stored_readings =
      reverse (content sample_readings sample_stored_readings) ∧
    (∀ s', apart sample_stored_readings s' →
           content h' s' = content sample_readings s') ∧
    sliceReverse h' sample_stored_readings = Some sample_readings.
Proof.
  apply (sliceReverse_in_place sample_readings sample_stored_readings).
  split; simpl; lia.
Defined.

(** X7. sliceUniq works in the slice it is given: the slice it returns
    starts at the same cell, the caller's slice afterwards reads the result
    followed by the old values of its remaining cells, no array is
    allocated and every slice that shares no cell with it reads as
    before. *)
Theorem sliceUniq_in_place
    {A K : Type} `{Countable K} (key : A → K) (h : heap A) (s : slice) :
  wf h s →
  ∃ h' r,
    sliceUniq (selector_of key s) h s = Some (h', r) ∧
    r = reslice s (len r) ∧ len r ≤ len s ∧
    content h' s = content h' r ++ drop (len r) (content h s) ∧
    length h' = length h ∧
    ∀ s', apart s s' → content h' s' = content h s'.
Proof.
  intros Hwf. pose proof (content_length h s Hwf) as Hlen.
  pose proof (sliceUniq_spec key h s (selector_of key s) Hwf) as Hrun.
  simpl in Hrun. rewrite Hrun by done.
  set (R := uniq_from key ∅ (content h s)).
  assert (length R ≤ len s) as HR.
  { rewrite <-Hlen. apply sublist_length, uniq_from_sublist. }
  assert (length (R ++ drop (length R) (content h s)) = len s) as Hc1
    by (rewrite length_app, length_drop; lia).
  eexists _, _. split; [done|]. simpl.
  split; [done|]. split; [done|].
  rewrite compacted_content, content_set_content by done.
  split; [done|]. split; [apply set_content_length|].
  intros s' Hap. unfold apart in Hap.
  apply content_set_content_frame; [done|lia|lia].
Qed.

Lemma sliceUniq_in_place_witness :
  ∃ h' r,
    sliceUniq (selector_of Text (Slice 0 0 3 3))
      [[tweet 1 "a" 0 0; tweet 2 "a" 0 0; tweet 3 "b" 0 0]] (Slice 0 0 3 3)
      = Some (h', r) ∧
    r = reslice (Slice 0 0 3 3) (len r) ∧ len r ≤ len (Slice 0 0 3 3) ∧
    content h' (Slice 0 0 3 3) =
      content h' r ++
      drop (len r)
        (content [[tweet 1 "a" 0 0; tweet 2 "a" 0 0; tweet 3 "b" 0 0]]
           (Slice 0 0 3 3)) ∧
    length h' =
      length [[tweet 1 "a" 0 0; tweet 2 "a" 0 0; tweet 3 "b" 0 0]] ∧
    ∀ s', apart (Slice 0 0 3 3) s' →
          content h' s' =
          content [[tweet 1 "a" 0 0; tweet 2 "a" 0 0; tweet 3 "b" 0 0]] s'.
Proof.
  apply (sliceUniq_in_place Text
           [[tweet 1 "a" 0 0; tweet 2 "a" 0 0; tweet 3 "b" 0 0]]
           (Slice 0 0 3 3)).
  split; simpl; lia.
Defined.

(** X8. sliceUniq drops no key: every key of the input is the key of an
    element of the output, and the input sequence is left alone when its
    keys are pairwise distinct; the call then returns the slice and the
    heap it was given. *)
Theorem sliceUniq_keeps_keys
    {A K : Type} `{Countable K} (key : A → K) (h : heap A) (s : slice) :
  wf h s →
  ∃ h' r,
    sliceUniq (selector_of key s) h s = Some (h', r) ∧
    (∀ x, x ∈ content h s → key x ∈ key <$> content h' r) ∧
    (NoDup (key <$> content h s) → h' = h ∧ r = s).
Proof.
  intros Hwf. pose proof (content_length h s Hwf) as Hlen.
  pose proof (sliceUniq_spec key h s (selector_of key s) Hwf) as Hrun.
  simpl in Hrun. rewrite Hrun by done.
  set (R := uniq_from key ∅ (content h s)).
  assert (length R ≤ len s) as HR.
  { rewrite <-Hlen. apply sublist_length, uniq_from_sublist. }
  eexists _, _. split; [done|].
  rewrite compacted_content by done. split.
  - intros x Hx.
    destruct (uniq_from_keys key ∅ (content h s) x Hx); [set_solver|done].
  - intros Hnd. unfold R.
    rewrite uniq_from_id by (done || set_solver).
    rewrite drop_all, app_nil_r, set_content_id, Hlen.
    by rewrite reslice_len.
Qed.

Lemma sliceUniq_keeps_keys_witness :
  ∃ h' r,
    sliceUniq (selector_of ID sample_fresh) sample_tweets sample_fresh
      = Some (h', r) ∧
    (∀ x, x ∈ content sample_tweets sample_fresh →
          ID x ∈ ID <$> content h' r) ∧
    (NoDup (ID <$> content sample_tweets sample_fresh) →
     h' = sample_tweets ∧ r = sample_fresh).
Proof.
  apply (sliceUniq_keeps_keys ID sample_tweets sample_fresh).
  split; simpl; lia.
Defined.

(** X9. sliceKeepOnly with nothing to drop or nothing to keep: when the key
    of every element of [s1] is a key of [s2] the call returns the slice
    and the heap it was given; when [s2] is empty it returns the empty
    slice at the start of [s1] and writes nothing. *)
Theorem sliceKeepOnly_all_or_nothing
    {A K : Type} `{Countable K} (key1 key2 : A → K)
    (h : heap A) (s1 s2 : slice) :
  wf h s1 → wf h s2 →
  ∃ h' r,
    sliceKeepOnly (selector_of key1 s1) (selector_of key2 s2) h s1 s2
      = Some (h', r) ∧
    ((∀ x, x ∈ content h s1 → key1 x ∈ key2 <$> content h s2) →
     h' = h ∧ r = s1) ∧
    (len s2 = 0 → h' = h ∧ r = reslice s1 0).
Proof.
  intros Hwf1 Hwf2. pose proof (content_length h s1 Hwf1) as Hlen.
  pose proof (sliceKeepOnly_spec key1 key2 h s1 s2
                (selector_of key1 s1) (selector_of key2 s2) Hwf1 Hwf2)
    as Hrun.
  simpl in Hrun. rewrite Hrun by done.
  eexists _, _. split; [done|]. split.
  - intros Hall.
    assert (filter (λ x, key1 x ∈ key2 <$> content h s2) (content h s1)
            = content h s1) as ->.
    { revert Hall. generalize (content h s1). intros l.
      induction l as [|x l IH]; intros Hall; [done|].
      rewrite filter_cons_True by (apply Hall; by left).
      f_equal. apply IH. intros y Hy. apply Hall. by right. }
    rewrite drop_all, app_nil_r, set_content_id, Hlen.
    by rewrite reslice_len.
  - intros Hempty.
    assert (content h s2 = []) as Hnil
      by (unfold content; by rewrite Hempty).
    assert (filter (λ x, key1 x ∈ key2 <$> content h s2) (content h s1)
            = []) as ->.
    { rewrite Hnil. generalize (content h s1). intros l.
      induction l as [|x l IH]; [done|].
      rewrite filter_cons_False; [done|]. simpl. apply not_elem_of_nil. }
    simpl. by rewrite drop_0, set_content_id.
Qed.

Lemma sliceKeepOnly_all_or_nothing_witness :
  ∃ h' r,
    sliceKeepOnly (selector_of ReviewID sample_fresh)
      (selector_of ReviewID sample_stored_readings)
      sample_readings sample_fresh sample_stored_readings = Some (h', r) ∧
    ((∀ x, x ∈ content sample_readings sample_fresh →
           ReviewID x ∈
             ReviewID <$> content sample_readings sample_stored_readings) →
     h' = sample_readings ∧ r = sample_fresh) ∧
    (len sample_stored_readings = 0 →
     h' = sample_readings ∧ r = reslice sample_fresh 0).
Proof.
  apply (sliceKeepOnly_all_or_nothing ReviewID ReviewID sample_readings
           sample_fresh sample_stored_readings); split; simpl; lia.
Defined.

(** X10. sliceKeepOnly works in [s1]: the slice it returns starts at the
    same cell, the caller's [s1] afterwards reads the elements kept
    followed by the old values of its remaining cells, no array is
    allocated, and every slice that shares no cell with [s1] reads as
    before. *)
Theorem sliceKeepOnly_in_place
    {A K : Type} `{Countable K} (key1 key2 : A → K)
    (h : heap A) (s1 s2 : slice) :
  wf h s1 → wf h s2 →
  ∃ h' r,
    sliceKeepOnly (selector_of key1 s1) (selector_of key2 s2) h s1 s2
      = Some (h', r) ∧
    r = reslice s1 (len r) ∧ len r ≤ len s1 ∧
    content h' s1 = content h' r ++ drop (len r) (content h s1) ∧
    length h' = length h ∧
    ∀ s', apart s1 s' → content h' s' = content h s'.
Proof.
  intros Hwf1 Hwf2. pose proof (content_length h s1 Hwf1) as Hlen.
  pose proof (sliceKeepOnly_spec key1 key2 h s1 s2
                (selector_of key1 s1) (selector_of key2 s2) Hwf1 Hwf2)
    as Hrun.
  simpl in Hrun. rewrite Hrun by done.
  set (R := filter (λ x, key1 x ∈ key2 <$> content h s2) (content h s1)).
  assert (length R ≤ len s1) as HR.
  { rewrite <-Hlen. apply length_filter. }
  assert (length (R ++ drop (length R) (content h s1)) = len s1) as Hc1
    by (rewrite length_app, length_drop; lia).
  eexists _, _. split; [done|]. simpl.
  split; [done|]. split; [done|].
  rewrite compacted_content, content_set_content by done.
  split; [done|]. split; [apply set_content_length|].
  intros s' Hap. unfold apart in Hap.
  apply content_set_content_frame; [done|lia|lia].
Qed.

Lemma sliceKeepOnly_in_place_witness :
  ∃ h' r,
    sliceKeepOnly (selector_of ReviewID sample_stored_readings)
      (selector_of ReviewID sample_fresh)
      sample_readings sample_stored_readings sample_fresh = Some (h', r) ∧
    r = reslice sample_stored_readings (len r) ∧
    len r ≤ len sample_stored_readings ∧
    content h' sample_stored_readings =
      content h' r ++
      drop (len r) (content sample_readings sample_stored_readings) ∧
    length h' = length sample_readings ∧
    ∀ s', apart sample_stored_readings s' →
          content h' s' = content sample_readings s'.
Proof.
  apply (sliceKeepOnly_in_place ReviewID ReviewID sample_readings
           sample_stored_readings sample_fresh); split; simpl; lia.
Defined.

(** ** The reconcilers *)

(** The heap mergeTweets leaves, from the slice append returned. *)
Lemma mergeTweets_run h fresh stored h1 s :
  wf h fresh → length (content h stored) = len stored →
  append h fresh stored = (h1, s) →
  let c3 := flip_pairs (stable_sort (less_by ID)
                          (content h fresh ++ content h stored)) in
  let R := uniq_from ID ∅ c3 in
  wf h1 s ∧ length c3 = len s ∧ length R ≤ len s ∧
  mergeTweets h fresh stored =
    Some (set_content h1 s (reverse R ++ drop (length R) c3),
          reslice s (length R)).
Proof.
  intros Hwf Hst Happ c3 R.
  destruct (append_spec h fresh stored Hwf Hst)
    as (h1' & s' & Happ' & Hwfs & Hcs & _).
  rewrite Happ in Happ'. simplify_eq.
  assert (length c3 = len s') as Hc3.
  { unfold c3. rewrite flip_pairs_length, stable_sort_length, <-Hcs.
    by apply content_length. }
  assert (length R ≤ len s') as HR.
  { rewrite <-Hc3. apply sublist_length, uniq_from_sublist. }
  split; [done|]. split; [done|]. split; [done|].
  unfold mergeTweets. rewrite Happ.
  set (c2 := stable_sort (less_by ID) (content h1' s')).
  assert (length c2 = len s') as Hc2
    by (unfold c2; by rewrite stable_sort_length, content_length).
  assert (wf (SliceStable (less_by ID) h1' s') s') as Hwf2
    by (by apply SliceStable_wf).
  rewrite flipDuplicateTweetsOnTrivialChanges_spec by done. simpl.
  unfold SliceStable. fold c2.
  rewrite content_set_content by done.
  rewrite set_content_again
    by (done || lia || (rewrite flip_pairs_length; lia)).
  assert (flip_pairs c2 = c3) as -> by (unfold c2, c3; by rewrite Hcs).
  assert (wf (set_content h1' s' c3) s') as Hwf3
    by (apply wf_set_content; (done || lia)).
  pose proof (sliceUniq_spec ID (set_content h1' s' c3) s'
                (λ h i, ID <$> load h s' i) Hwf3) as Hu.
  simpl in Hu. rewrite Hu by done. clear Hu. simpl.
  rewrite content_set_content by done. fold R.
  assert (length (R ++ drop (length R) c3) = len s') as Hc4
    by (rewrite length_app, length_drop; lia).
  rewrite set_content_again by (done || lia).
  rewrite sliceReverse_spec
    by (apply wf_reslice; [apply wf_set_content; (done || lia)|done]).
  simpl. do 2 f_equal.
  rewrite content_reslice, content_set_content, take_app_length by done.
  change (set_content ?m (reslice s' ?n) ?c) with (set_content m s' c).
  apply set_content_prefix; [done|lia|by rewrite length_reverse].
Qed.

Lemma merged_tweets_elem_of fresh stored x :
  x ∈ merged_tweets fresh stored → x ∈ fresh ∨ x ∈ stored.
Proof.
  unfold merged_tweets. rewrite elem_of_reverse.
  intros [Hx _]%uniq_from_elem_of.
  rewrite flip_pairs_Permutation, (stable_sort_Permutation ID) in Hx.
  by apply elem_of_app.
Qed.

(** An identifier carried by one element of the two batches only. *)
Lemma merged_tweets_single fresh stored x :
  filter (λ y, ID y = ID x) (fresh ++ stored) = [x] →
  filter (λ y, ID y = ID x) (merged_tweets fresh stored) = [x].
Proof.
  intros Hone. unfold merged_tweets.
  set (sorted := stable_sort (less_by ID) (fresh ++ stored)).
  assert (filter (λ y, ID y = ID x) sorted = [x]) as Hgroup
    by (unfold sorted; by rewrite (stable_sort_filter ID)).
  rewrite filter_reverse, uniq_from_filter, decide_False by set_solver.
  destruct sorted as [|z l] eqn:Hsorted; [done|].
  unfold flip_pairs. rewrite flip_from_filter, Hgroup; [done| |].
  - rewrite <-Hsorted. apply stable_sort_ascending.
  - rewrite Hgroup. simpl. lia.
Qed.

Lemma filter_elem_of_singleton {A} (P : A → Prop) `{∀ x, Decision (P x)}
    (l : list A) x y :
  filter P l = [x] → y ∈ l → P y → y = x.
Proof.
  intros Hf Hy HP.
  assert (y ∈ filter P l) as Hin by (by apply list_elem_of_filter).
  rewrite Hf in Hin. by apply list_elem_of_singleton in Hin.
Qed.

Lemma merged_tweets_one_batch l :
  NoDup (ID <$> l) → merged_tweets l [] ≡ₚ l ∧ merged_tweets [] l ≡ₚ l.
Proof.
  intros Hnd.
  assert (∀ f s, f ++ s = l → merged_tweets f s ≡ₚ l) as Hboth.
  { intros f s Hfs. apply NoDup_Permutation.
    - apply (NoDup_fmap_1 ID), descending_NoDup, merged_tweets_descending.
    - by apply (NoDup_fmap_1 ID).
    - intros x. split.
      + intros Hx%merged_tweets_elem_of. rewrite <-Hfs.
        by apply elem_of_app.
      + intros Hx.
        assert (filter (λ y, ID y = ID x) (merged_tweets f s) = [x]) as Hf.
        { apply merged_tweets_single. rewrite Hfs.
          by apply filter_key_NoDup. }
        apply (list_elem_of_filter (λ y, ID y = ID x)).
        rewrite Hf. apply list_elem_of_singleton. done. }
  split; apply Hboth; [apply app_nil_r|done].
Qed.

Lemma merged_readings_fresh fresh kept :
  NoDup (ReviewID <$> fresh) →
  (∀ x, x ∈ kept → ReviewID x ∈ ReviewID <$> fresh) →
  merged_readings fresh kept ≡ₚ fresh.
Proof.
  intros Hnd Hkept.
  assert (∀ f, f ∈ fresh →
    filter (λ y, ReviewID y = ReviewID f) (merged_readings fresh kept)
      = [f]) as Hfilter.
  { intros f Hf. rewrite merged_readings_filter, filter_app.
    by rewrite (filter_key_NoDup ReviewID fresh f). }
  apply NoDup_Permutation.
  - apply (NoDup_fmap_1 ReviewID), descending_NoDup,
      merged_readings_descending.
  - by apply (NoDup_fmap_1 ReviewID).
  - intros x. split.
    + intros Hx.
      assert (ReviewID x ∈ ReviewID <$> fresh) as Hk.
      { apply merged_readings_elem_of in Hx as [Hx|Hx];
          [by apply list_elem_of_fmap_2|by apply Hkept]. }
      apply list_elem_of_fmap in Hk as (f & Hk & Hf).
      assert (x = f) as ->; [|done].
      apply (filter_elem_of_singleton (λ y, ReviewID y = ReviewID f)
               (merged_readings fresh kept)); auto.
    + intros Hx.
      apply (list_elem_of_filter (λ y, ReviewID y = ReviewID x)).
      rewrite Hfilter by done. by apply list_elem_of_singleton.
Qed.

(** X11. mergeReadings keeps nothing of the stored batch: for a fresh batch
    free of duplicate review identifiers, in cells of its own, the output
    is a permutation of the fresh batch, whatever the stored batch
    holds. *)
Theorem mergeReadings_returns_fresh
    (h : heap Reading) (apiReadings existingReadings : slice) :
  wf h apiReadings → wf h existingReadings →
  separate apiReadings existingReadings →
  NoDup (ReviewID <$> content h apiReadings) →
  ∃ h' r,
    mergeReadings h apiReadings existingReadings = Some (h', r) ∧
    content h' r ≡ₚ content h apiReadings.
Proof.
  intros Hf Hs Hsep Hnd.
  destruct (mergeReadings_spec h apiReadings existingReadings Hf Hs)
    as (h' & r & Hrun & Hc & _).
  exists h', r. split; [done|]. rewrite Hc.
  set (kept := kept_readings (content h apiReadings)
                 (content h existingReadings)).
  assert (content (set_content h existingReadings
                     (kept ++ drop (length kept)
                                (content h existingReadings))) apiReadings
          = content h apiReadings) as ->.
  { pose proof (content_length h existingReadings Hs) as Hc0.
    assert (length kept ≤ len existingReadings) as Hk
      by (rewrite <-Hc0; apply length_filter).
    destruct Hf as [Hlen _].
    apply content_set_content_frame; [done| |];
      rewrite length_app, length_drop; unfold separate in Hsep; lia. }
  apply merged_readings_fresh; [done|].
  intros x Hx. unfold kept, kept_readings in Hx.
  by apply list_elem_of_filter in Hx as [? _].
Qed.

Lemma mergeReadings_returns_fresh_witness :
  ∃ h' r,
    mergeReadings sample_readings sample_fresh sample_stored_readings
      = Some (h', r) ∧
    content h' r ≡ₚ content sample_readings sample_fresh.
Proof.
  apply (mergeReadings_returns_fresh sample_readings sample_fresh
           sample_stored_readings).
  - split; simpl; lia.
  - split; simpl; lia.
  - left. simpl. lia.
  - apply (bool_decide_unpack _). vm_compute. reflexivity.
Defined.

(** X12. With an empty fresh batch mergeReadings returns the empty
    sequence: every stored reading is dropped. *)
Theorem mergeReadings_empty_fresh
    (h : heap Reading) (apiReadings existingReadings : slice) :
  wf h apiReadings → wf h existingReadings → len apiReadings = 0 →
  ∃ h' r,
    mergeReadings h apiReadings existingReadings = Some (h', r) ∧
    content h' r = [].
Proof.
  intros Hf Hs Hempty.
  destruct (mergeReadings_spec h apiReadings existingReadings Hf Hs)
    as (h' & r & Hrun & Hc & _).
  exists h', r. split; [done|]. rewrite Hc.
  assert (∀ m : heap Reading, content m apiReadings = []) as Hnil
    by (intros m; unfold content; by rewrite Hempty).
  rewrite !Hnil. unfold kept_readings.
  assert (∀ l : list Reading,
            filter (λ x : Reading, ReviewID x ∈ ReviewID <$> []) l = [])
    as ->; [|done].
  induction l as [|x l IH]; [done|].
  rewrite filter_cons_False; [exact IH|]. simpl. apply not_elem_of_nil.
Qed.

Lemma mergeReadings_empty_fresh_witness :
  ∃ h' r,
    mergeReadings sample_readings nil_slice sample_stored_readings
      = Some (h', r) ∧
    content h' r = [].
Proof.
  apply (mergeReadings_empty_fresh sample_readings nil_slice
           sample_stored_readings).
  - split; simpl; lia.
  - split; simpl; lia.
  - reflexivity.
Defined.

(** X13. mergeTweets invents nothing and loses no identifier of the fresh
    batch: every element of the output is an element of one of the two
    batches, and every identifier of the fresh batch occurs in the
    output. *)
Theorem mergeTweets_elements
    (h : heap Tweet) (apiTweets existingTweets : slice) :
  wf h apiTweets → wf h existingTweets →
  ∃ h' r,
    mergeTweets h apiTweets existingTweets = Some (h', r) ∧
    (∀ x, x ∈ content h' r →
          x ∈ content h apiTweets ∨ x ∈ content h existingTweets) ∧
    (∀ x, x ∈ content h apiTweets → ID x ∈ ID <$> content h' r).
Proof.
  intros Hf Hs.
  destruct (mergeTweets_spec h apiTweets existingTweets Hf)
    as (h' & r & Hrun & Hc & _); [by apply content_length|].
  exists h', r. split; [done|]. rewrite Hc. split.
  - apply merged_tweets_elem_of.
  - intros x Hx. apply merged_tweets_keys, elem_of_app. by left.
Qed.

Lemma mergeTweets_elements_witness :
  ∃ h' r,
    mergeTweets sample_tweets sample_fresh sample_stored = Some (h', r) ∧
    (∀ x, x ∈ content h' r →
          x ∈ content sample_tweets sample_fresh ∨
          x ∈ content sample_tweets sample_stored) ∧
    (∀ x, x ∈ content sample_tweets sample_fresh →
          ID x ∈ ID <$> content h' r).
Proof.
  apply (mergeTweets_elements sample_tweets sample_fresh sample_stored);
    split; simpl; lia.
Defined.

(** X14. A tweet whose identifier occurs once in the two batches together
    is in the output of mergeTweets as it is, from whichever batch it
    comes. *)
Theorem mergeTweets_keeps_single
    (h : heap Tweet) (apiTweets existingTweets : slice) (x : Tweet) :
  wf h apiTweets → wf h existingTweets →
  filter (λ y, ID y = ID x)
    (content h apiTweets ++ content h existingTweets) = [x] →
  ∃ h' r,
    mergeTweets h apiTweets existingTweets = Some (h', r) ∧
    x ∈ content h' r ∧
    ∀ y, y ∈ content h' r → ID y = ID x → y = x.
Proof.
  intros Hf Hs Hone.
  destruct (mergeTweets_spec h apiTweets existingTweets Hf)
    as (h' & r & Hrun & Hc & _); [by apply content_length|].
  exists h', r. split; [done|]. rewrite Hc.
  pose proof (merged_tweets_single _ _ _ Hone) as Hfilter. split.
  - apply (list_elem_of_filter (λ y, ID y = ID x)).
    rewrite Hfilter. by apply list_elem_of_singleton.
  - intros y Hy Hyx.
    by apply (filter_elem_of_singleton (λ y, ID y = ID x)
                (merged_tweets (content h apiTweets)
                   (content h existingTweets))).
Qed.

Lemma mergeTweets_keeps_single_witness :
  ∃ h' r,
    mergeTweets sample_tweets sample_fresh sample_stored = Some (h', r) ∧
    tweet 123 "s2 123" 0 0 ∈ content h' r ∧
    ∀ y, y ∈ content h' r → ID y = ID (tweet 123 "s2 123" 0 0) →
         y = tweet 123 "s2 123" 0 0.
Proof.
  apply (mergeTweets_keeps_single sample_tweets sample_fresh sample_stored
           (tweet 123 "s2 123" 0 0)).
  - split; simpl; lia.
  - split; simpl; lia.
  - vm_compute. reflexivity.
Defined.

(** X15. With one batch empty and the other free of duplicate identifiers,
    mergeTweets returns a permutation of the other batch: nothing is
    dropped and nothing is added. *)
Theorem mergeTweets_one_batch
    (h : heap Tweet) (apiTweets existingTweets : slice) :
  wf h apiTweets → wf h existingTweets →
  ∃ h' r,
    mergeTweets h apiTweets existingTweets = Some (h', r) ∧
    (len existingTweets = 0 → NoDup (ID <$> content h apiTweets) →
     content h' r ≡ₚ content h apiTweets) ∧
    (len apiTweets = 0 → NoDup (ID <$> content h existingTweets) →
     content h' r ≡ₚ content h existingTweets).
Proof.
  intros Hf Hs.
  destruct (mergeTweets_spec h apiTweets existingTweets Hf)
    as (h' & r & Hrun & Hc & _); [by apply content_length|].
  exists h', r. split; [done|]. rewrite Hc. split.
  - intros Hempty Hnd.
    assert (content h existingTweets = []) as ->
      by (unfold content; by rewrite Hempty).
    by apply merged_tweets_one_batch.
  - intros Hempty Hnd.
    assert (content h apiTweets = []) as ->
      by (unfold content; by rewrite Hempty).
    by apply merged_tweets_one_batch.
Qed.

Lemma mergeTweets_one_batch_witness :
  ∃ h' r,
    mergeTweets sample_tweets sample_fresh nil_slice = Some (h', r) ∧
    (len nil_slice = 0 → NoDup (ID <$> content sample_tweets sample_fresh) →
     content h' r ≡ₚ content sample_tweets sample_fresh) ∧
    (len sample_fresh = 0 →
     NoDup (ID <$> content sample_tweets nil_slice) →
     content h' r ≡ₚ content sample_tweets nil_slice).
Proof.
  apply (mergeTweets_one_batch sample_tweets sample_fresh nil_slice);
    split; simpl; lia.
Defined.



(** X17. When the fresh slice has room for the stored tweets, mergeTweets
    works in the backing array of the fresh slice: no array is allocated,
    the result is a window on that array from the same offset, and the
    fresh slice the caller holds is overwritten; for a fresh batch
    without duplicate identifiers it then shows the first elements of the
    result. *)
Theorem mergeTweets_in_fresh_array
    (h : heap Tweet) (apiTweets existingTweets : slice) :
  wf h apiTweets → wf h existingTweets →
  len apiTweets + len existingTweets ≤ cap apiTweets →
  ∃ h' r,
    mergeTweets h apiTweets existingTweets = Some (h', r) ∧
    r = reslice apiTweets (len r) ∧
    length h' = length h ∧
    (NoDup (ID <$> content h apiTweets) →
     len apiTweets ≤ len r ∧
     content h' apiTweets = take (len apiTweets) (content h' r)).
Proof.
  intros Hf Hs Hcap.
  pose proof (content_length h existingTweets Hs) as Hst.
  pose proof (content_length h apiTweets Hf) as Hfr.
  set (s := Slice (arr apiTweets) (off apiTweets)
              (len apiTweets + len existingTweets) (cap apiTweets)).
  set (h1 := alter (splice (off apiTweets + len apiTweets)
                      (content h existingTweets)) (arr apiTweets) h).
  assert (append h apiTweets existingTweets = (h1, s)) as Happ.
  { unfold append. by rewrite decide_True by lia. }
  destruct (mergeTweets_run h apiTweets existingTweets _ _ Hf Hst Happ)
    as (Hwf1 & Hc3 & HR & Hrun).
  set (c3 := flip_pairs (stable_sort (less_by ID)
               (content h apiTweets ++ content h existingTweets))) in *.
  set (R := uniq_from ID ∅ c3) in *.
  set (c := reverse R ++ drop (length R) c3) in *.
  assert (length c = len s) as Hc.
  { unfold c. rewrite length_app, length_reverse, length_drop. lia. }
  exists (set_content h1 s c), (reslice s (length R)).
  split; [exact Hrun|]. split; [done|]. split.
  { rewrite set_content_length. apply length_alter. }
  intros Hnd.
  assert (len apiTweets ≤ length R) as Hle.
  { rewrite <-Hfr, <-(length_fmap ID (content h apiTweets)),
      <-(length_fmap ID R).
    apply submseteq_length, NoDup_submseteq; [done|].
    intros k (x & -> & Hx)%list_elem_of_fmap.
    destruct (uniq_from_keys ID ∅ c3 x) as [Hin|Hin]; [|set_solver|done].
    unfold c3. rewrite flip_pairs_Permutation, (stable_sort_Permutation ID).
    apply elem_of_app. by left. }
  split; [exact Hle|].
  assert (apiTweets = reslice s (len apiTweets)) as Hfresh
    by (by destruct apiTweets).
  rewrite Hfresh at 1.
  rewrite (content_reslice _ s (len apiTweets)) by (simpl; lia).
  rewrite (content_reslice _ s (length R)) by exact HR.
  rewrite take_take. f_equal. lia.
Qed.

Lemma mergeTweets_in_fresh_array_witness :
  ∃ h' r,
    mergeTweets
      [ [tweet 2 "b" 0 0; tweet 1 "a" 0 0; tweet 0 "" 0 0];
        [tweet 3 "c" 0 0] ]
      (Slice 0 0 2 3) (Slice 1 0 1 1) = Some (h', r) ∧
    r = reslice (Slice 0 0 2 3) (len r) ∧
    length h' = 2 ∧
    (NoDup (ID <$> [tweet 2 "b" 0 0; tweet 1 "a" 0 0]) →
     2 ≤ len r ∧
     content h' (Slice 0 0 2 3) = take 2 (content h' r)).
Proof.
  apply (mergeTweets_in_fresh_array
           [ [tweet 2 "b" 0 0; tweet 1 "a" 0 0; tweet 0 "" 0 0];
             [tweet 3 "c" 0 0] ]
           (Slice 0 0 2 3) (Slice 1 0 1 1)).
  - split; simpl; lia.
  - split; simpl; lia.
  - simpl. lia.
Defined.

(** ** The conversions from the API types *)

Lemma filled_push {A} (s : option (list (option A))) (x : A) :
  filled s → filled (push s (Some x)).
Proof.
  intros Hs. unfold push. simpl. split.
  - by destruct (default [] s).
  - intros [Hin|Hin]%elem_of_app.
    + destruct s as [l|]; simpl in *; [by destruct Hs|].
      by apply elem_of_nil in Hin.
    + by apply list_elem_of_singleton in Hin.
Qed.

Lemma push_length {A} (s : option (list A)) (x : A) :
  length (default [] (push s x)) = S (length (default [] s)).
Proof. unfold push. simpl. rewrite length_app. simpl. lia. Qed.

(** A loop that appends one allocated record per element. *)
Lemma foldl_push {A B} (f : B → A) (s : option (list (option A))) l :
  let r := foldl (λ s x, push s (Some (f x))) s l in
  (filled s → filled r) ∧
  length (default [] r) = length (default [] s) + length l ∧
  (l ≠ [] → r ≠ None).
Proof.
  revert s. induction l as [|x l IH]; intros s; simpl.
  - split; [done|]. split; [lia|done].
  - destruct (IH (push s (Some (f x)))) as (Hf & Hl & Hn).
    split; [|split].
    + intros Hs. by apply Hf, filled_push.
    + rewrite Hl, push_length. lia.
    + intros _. destruct l; [done|]. by apply Hn.
Qed.

Lemma foldl_add_media e l :
  foldl add_media e l =
    {| Medias := foldl (λ s media, push s
         (Some {| MediaID := twitter.Media_ID media;
                  MediaType := twitter.Media_Type media;
                  MediaURL := twitter.MediaURLHttps media |})) (Medias e) l;
       URLs := URLs e; UserMentions := UserMentions e |}.
Proof.
  revert e. induction l as [|x l IH]; intros e; simpl; [by destruct e|].
  by rewrite IH.
Qed.

Lemma foldl_add_url e l :
  foldl add_url e l =
    {| Medias := Medias e;
       URLs := foldl (λ s url, push s
         (Some {| DisplayURL := twitter.DisplayURL url;
                  ExpandedURL := twitter.ExpandedURL url;
                  URL := twitter.URL url |})) (URLs e) l;
       UserMentions := UserMentions e |}.
Proof.
  revert e. induction l as [|x l IH]; intros e; simpl; [by destruct e|].
  by rewrite IH.
Qed.

Lemma foldl_add_user_mention e l :
  foldl add_user_mention e l =
    {| Medias := Medias e; URLs := URLs e;
       UserMentions := foldl (λ s userMention, push s
         (Some {| MentionUser := twitter.ScreenName userMention;
                  MentionUserID := twitter.Mention_ID userMention |}))
         (UserMentions e) l |}.
Proof.
  revert e. induction l as [|x l IH]; intros e; simpl; [by destruct e|].
  by rewrite IH.
Qed.

Lemma authors_loop_spec authors l :
  match authors_loop authors l with
  | Some r =>
      (None ∉ l) ∧ (filled authors → filled r) ∧
      length (default [] r) = length (default [] authors) + length l ∧
      (l ≠ [] ∨ authors ≠ None → r ≠ None)
  | None => None ∈ l
  end.
Proof.
  revert authors. induction l as [|[a|] l IH]; intros authors; simpl.
  - split; [apply not_elem_of_nil|]. split; [done|]. split; [lia|].
    by intros [?|?].
  - specialize (IH (push authors
      (Some {| AuthorID := APIBookAuthor_ID a;
               AuthorName := APIBookAuthor_Name a |}))).
    destruct (authors_loop _ l) as [r|].
    + destruct IH as (Hn & Hf & Hl & Hne). split; [|split; [|split]].
      * intros [?|?]%elem_of_cons; [done|by apply Hn].
      * intros Hs. by apply Hf, filled_push.
      * rewrite Hl, push_length. lia.
      * intros _. apply Hne. by right.
    + by right.
  - by left.
Qed.

Section conversion_facts.
Context `{Lib}.

Lemma tweetFromAPITweet_ID tweet x :
  tweetFromAPITweet tweet = Some x → ID x = twitter.ID tweet.
Proof.
  unfold tweetFromAPITweet. intros Hx.
  destruct (CreatedAtTime tweet); [|done].
  destruct (twitter.Tweet_Entities tweet); [|done]. simpl in Hx.
  destruct (twitter.RetweetedStatus tweet) as [[sid [user|]]|];
    simpl in Hx; by simplify_eq.
Qed.
End conversion_facts.

Section conversion_results.
Context `{Lib}.

(** X18. readingFromAPIReview panics exactly on a review without a book,
    on a book with a nil author, and on a time of reading that is not
    empty and does not parse; an empty time of reading is accepted. *)
Theorem readingFromAPIReview_panics (review : APIReview) :
  readingFromAPIReview review = None ↔
    APIReview_Book review = None ∨
    (∃ book, APIReview_Book review = Some book ∧
             None ∈ APIBook_Authors book) ∨
    (APIReview_ReadAt review ≠ "" ∧
     time_Parse goodreadsTimeFormat (APIReview_ReadAt review) = None).
Proof.
  unfold readingFromAPIReview.
  destruct (APIReview_Book review) as [book|]; simpl; [|by split; [left|]].
  pose proof (authors_loop_spec None (APIBook_Authors book)) as Ha.
  destruct (authors_loop None (APIBook_Authors book)) as [authors|]; simpl.
  - destruct Ha as (Hnil & _).
    destruct (decide (APIReview_ReadAt review ≠ "")) as [Hne|He].
    + destruct (time_Parse goodreadsTimeFormat (APIReview_ReadAt review))
        as [t|]; simpl.
      * split; [done|]. intros [?|[(b & ? & ?)|[_ ?]]]; [done| |done].
        by simplify_eq.
      * split; [|done]. intros _. right. right. done.
    + simpl. split; [done|].
      intros [?|[(b & ? & ?)|[? _]]]; [done| |done]. by simplify_eq.
  - split; [|done]. intros _. right. left. by exists book.
Qed.

(** X19. A reading that readingFromAPIReview returns carries the review
    identifier of the review, the key of mergeReadings; its authors are
    a nil slice when the book has none and otherwise one allocated
    author per author of the book; a review without time of reading
    gets the zero time. *)
Theorem readingFromAPIReview_fields (review : APIReview) (r : Reading) :
  readingFromAPIReview review = Some r →
  ∃ book,
    APIReview_Book review = Some book ∧
    ReviewID r = APIReview_ID review ∧
    filled (Authors r) ∧
    length (default [] (Authors r)) = length (APIBook_Authors book) ∧
    (Authors r = None ↔ APIBook_Authors book = []) ∧
    (APIReview_ReadAt review = "" → ReadAt r = time_zero).
Proof.
  unfold readingFromAPIReview. intros Hr.
  destruct (APIReview_Book review) as [book|]; simpl in Hr; [|done].
  exists book. split; [done|].
  pose proof (authors_loop_spec None (APIBook_Authors book)) as Ha.
  destruct (authors_loop None (APIBook_Authors book)) as [authors|];
    simpl in Hr; [|done].
  destruct Ha as (_ & Hf & Hl & Hne).
  destruct (decide (APIReview_ReadAt review ≠ "")) as [Hread|Hread].
  - destruct (time_Parse goodreadsTimeFormat (APIReview_ReadAt review));
      simpl in Hr; [|done].
    simplify_eq. simpl. split; [done|]. split; [by apply Hf|].
    split; [exact Hl|]. split; [|done]. split.
    + intros ->. simpl in Hl. symmetry in Hl. by apply nil_length_inv in Hl.
    + intros Hnil. destruct authors as [l|]; [|done].
      rewrite Hnil in Hl. simpl in Hl. apply nil_length_inv in Hl.
      destruct Hf as [Hf _]; done.
  - simpl in Hr. simplify_eq. simpl. split; [done|]. split; [by apply Hf|].
    split; [exact Hl|]. split; [|done]. split.
    + intros ->. simpl in Hl. symmetry in Hl. by apply nil_length_inv in Hl.
    + intros Hnil. destruct authors as [l|]; [|done].
      rewrite Hnil in Hl. simpl in Hl. apply nil_length_inv in Hl.
      destruct Hf as [Hf _]; done.
Qed.
End conversion_results.

Lemma readingFromAPIReview_fields_witness :
  ∃ book,
    APIReview_Book sample_review = Some book ∧
    ReviewID sample_reading = APIReview_ID sample_review ∧
    filled (Authors sample_reading) ∧
    length (default [] (Authors sample_reading))
      = length (APIBook_Authors book) ∧
    (Authors sample_reading = None ↔ APIBook_Authors book = []) ∧
    (APIReview_ReadAt sample_review = "" →
     ReadAt sample_reading = time_zero).
Proof.
  apply (readingFromAPIReview_fields sample_review sample_reading).
  reflexivity.
Defined.

Section entities_results.
Context `{Lib}.

(** X20. The entities of a tweet that tweetFromAPITweet returns: they
    are nil exactly when the tweet has no media, no URL and no user
    mention, the media being the extended ones when there are any; and
    when they are allocated, each of the three slices is nil or holds one
    allocated record per entity of the API tweet, never an empty slice,
    which reflect.DeepEqual would tell apart from a nil one. *)
Theorem tweetFromAPITweet_entities (tweet : twitter.Tweet) (x : Tweet) :
  tweetFromAPITweet tweet = Some x →
  ∃ apiEntities,
    twitter.Tweet_Entities tweet = Some apiEntities ∧
    (Entities x = None ↔
       media_of tweet apiEntities = [] ∧
       twitter.Urls apiEntities = [] ∧
       twitter.UserMentions apiEntities = []) ∧
    ∀ e, Entities x = Some e →
      filled (Medias e) ∧ filled (URLs e) ∧ filled (UserMentions e) ∧
      length (default [] (Medias e)) = length (media_of tweet apiEntities) ∧
      length (default [] (URLs e)) = length (twitter.Urls apiEntities) ∧
      length (default [] (UserMentions e))
        = length (twitter.UserMentions apiEntities).
Proof.
  unfold tweetFromAPITweet. intros Hx.
  destruct (CreatedAtTime tweet) as [createdAt|]; [|done]. simpl in Hx.
  destruct (twitter.Tweet_Entities tweet) as [ents|]; [|done].
  simpl in Hx. exists ents. split; [done|].
  assert (∃ retweet, x =
    {| CreatedAt := createdAt;
       Entities :=
         (let e1 :=
            if decide (0 < length (media_of tweet ents))
            then Some (foldl add_media (allocated None) (media_of tweet ents))
            else None in
          let e2 :=
            if decide (0 < length (twitter.Urls ents))
            then Some (foldl add_url (allocated e1) (twitter.Urls ents))
            else e1 in
          if decide (0 < length (twitter.UserMentions ents))
          then Some (foldl add_user_mention (allocated e2)
                       (twitter.UserMentions ents))
          else e2);
       FavoriteCount := twitter.FavoriteCount tweet;
       ID := twitter.ID tweet;
       Reply :=
         (if decide (twitter.InReplyToStatusID tweet ≠ 0%Z)
          then Some {| ReplyStatusID := twitter.InReplyToStatusID tweet;
                       ReplyUser := twitter.InReplyToScreenName tweet;
                       ReplyUserID := twitter.InReplyToUserID tweet |}
          else None);
       Retweet := retweet;
       RetweetCount := twitter.RetweetCount tweet;
       Text := sanitizeTweetText (twitter.FullText tweet) |}) as [retweet ->].
  { unfold media_of.
    destruct (twitter.RetweetedStatus tweet) as [[sid [user|]]|];
      simpl in Hx; [|done|]; simplify_eq; eexists;
      (destruct (twitter.ExtendedEntities tweet) as [[[|m ms]]|];
       simpl; reflexivity). }
  simpl. clear Hx.
  pose proof (foldl_push
    (λ media, {| MediaID := twitter.Media_ID media;
                 MediaType := twitter.Media_Type media;
                 MediaURL := twitter.MediaURLHttps media |})
    None (media_of tweet ents)) as (Hmf & Hml & Hmn).
  pose proof (foldl_push
    (λ url, {| DisplayURL := twitter.DisplayURL url;
               ExpandedURL := twitter.ExpandedURL url;
               URL := twitter.URL url |})
    None (twitter.Urls ents)) as (Huf & Hul & _).
  pose proof (foldl_push
    (λ userMention,
       {| MentionUser := twitter.ScreenName userMention;
          MentionUserID := twitter.Mention_ID userMention |})
    None (twitter.UserMentions ents)) as (Hnf & Hnl & _).
  set (medias := media_of tweet ents) in *.
  set (urls := twitter.Urls ents) in *.
  set (mentions := twitter.UserMentions ents) in *.
  clearbody medias urls mentions.
  rewrite !foldl_add_media, !foldl_add_url, !foldl_add_user_mention.
  destruct (decide (0 < length medias)) as [Hm|Hm];
    destruct (decide (0 < length urls)) as [Hu|Hu];
    destruct (decide (0 < length mentions)) as [Hn|Hn]; simpl;
    repeat match goal with
    | H : ¬ 0 < length ?l |- _ =>
        assert (l = []) as -> by (apply nil_length_inv; lia); clear H
    end;
    (split;
     [ split; [done|intros (? & ? & ?); first [done|simplify_eq/=; lia]]
     | intros e He; simplify_eq/= ]).
  all: simpl in *; repeat split; auto; lia.
Qed.
End entities_results.

Lemma tweetFromAPITweet_entities_witness :
  ∃ apiEntities,
    twitter.Tweet_Entities (api_tweet 5 "e") = Some apiEntities ∧
    (Entities sample_converted = None ↔
       media_of (api_tweet 5 "e") apiEntities = [] ∧
       twitter.Urls apiEntities = [] ∧
       twitter.UserMentions apiEntities = []) ∧
    ∀ e, Entities sample_converted = Some e →
      filled (Medias e) ∧ filled (URLs e) ∧ filled (UserMentions e) ∧
      length (default [] (Medias e))
        = length (media_of (api_tweet 5 "e") apiEntities) ∧
      length (default [] (URLs e)) = length (twitter.Urls apiEntities) ∧
      length (default [] (UserMentions e))
        = length (twitter.UserMentions apiEntities).
Proof.
  apply (tweetFromAPITweet_entities (api_tweet 5 "e") sample_converted).
  reflexivity.
Defined.

(** ** The pagination loop of syncTwitter *)

Lemma descending_alt {A} (key : A → Z) l :
  descending key l ↔ StronglySorted (λ a b, (b < a)%Z) (key <$> l).
Proof.
  unfold descending. induction l as [|x l IH]; simpl.
  - split; constructor.
  - rewrite !StronglySorted_cons, IH, Forall_fmap. done.
Qed.

Lemma descending_keys {A B} (f : A → Z) (g : B → Z) l1 l2 :
  f <$> l1 = g <$> l2 → descending g l2 → descending f l1.
Proof. rewrite !descending_alt. by intros ->. Qed.

Lemma descending_filter {A} (key : A → Z) (P : A → Prop)
    `{∀ x, Decision (P x)} l :
  descending key l → descending key (filter P l).
Proof.
  unfold descending. induction 1 as [|x l Hl IH Hx]; [constructor|].
  destruct (decide (P x)).
  - rewrite filter_cons_True by done. constructor; [done|].
    rewrite Forall_forall in Hx. apply Forall_forall.
    intros y [_ Hy]%list_elem_of_filter. by apply Hx.
  - by rewrite filter_cons_False.
Qed.

(** The last element of a descending sequence has the least key. *)
Lemma descending_last {A} (key : A → Z) l z :
  descending key l → l !! (length l - 1) = Some z →
  z ∈ l ∧ ∀ x, x ∈ l → (key z ≤ key x)%Z.
Proof.
  intros Hl Hz.
  assert (last l = Some z) as (l' & ->)%last_Some.
  { rewrite last_lookup. rewrite <-Hz. f_equal. lia. }
  split; [apply elem_of_app; right; by apply list_elem_of_singleton|].
  intros x [Hx|Hx]%elem_of_app.
  - apply StronglySorted_app in Hl as (Hcross & _ & _).
    specialize (Hcross x z Hx). simpl in Hcross.
    assert (z ∈ [z]) as Hin by (by apply list_elem_of_singleton).
    specialize (Hcross Hin). lia.
  - apply list_elem_of_singleton in Hx as ->. lia.
Qed.

Section timeline_facts.
Context `{Lib} (UserTimeline : nat → Z → option (list twitter.Tweet)).

(** The tweets a page adds are those below the cursor, in the order of
    the page; with the cursor at zero, all of them. *)
Lemma timeline_page_spec maxTweetID apiTweets tweets processed r :
  timeline_page maxTweetID apiTweets tweets processed = Some r →
  ∃ added,
    r = (tweets ++ added, processed || bool_decide (added ≠ [])) ∧
    ID <$> added =
      twitter.ID <$>
        filter (λ t, ¬ (maxTweetID ≠ 0 ∧ maxTweetID ≤ twitter.ID t)%Z)
          apiTweets.
Proof.
  revert tweets processed.
  induction apiTweets as [|t l IH]; intros tweets processed; simpl.
  - intros [= <-]. exists []. rewrite app_nil_r, orb_false_r. done.
  - destruct (decide (maxTweetID ≠ 0 ∧ maxTweetID ≤ twitter.ID t)%Z)
      as [Hskip|Hkeep].
    + intros Hr. rewrite filter_cons_False by tauto. by apply IH.
    + destruct (tweetFromAPITweet t) as [x|] eqn:Hx; simpl; [|done].
      intros (added & -> & Hids)%IH. exists (x :: added).
      rewrite filter_cons_True by done. split.
      * rewrite <-app_assoc, orb_true_r. done.
      * rewrite !fmap_cons. f_equal; [|exact Hids].
        by apply tweetFromAPITweet_ID.
Qed.

Lemma timeline_page_panic maxTweetID apiTweets tweets processed :
  timeline_page maxTweetID apiTweets tweets processed = None →
  ∃ t, t ∈ apiTweets ∧ tweetFromAPITweet t = None.
Proof.
  revert tweets processed.
  induction apiTweets as [|t l IH]; intros tweets processed; simpl; [done|].
  case_decide.
  - intros (t' & ? & ?)%IH. exists t'. split; [by right|done].
  - destruct (tweetFromAPITweet t) as [x|] eqn:Hx; simpl.
    + intros (t' & ? & ?)%IH. exists t'. split; [by right|done].
    + intros _. exists t. split; [by left|done].
Qed.

(** A page that added a tweet holds a tweet below the cursor. *)
Lemma timeline_page_processed maxTweetID apiTweets tweets tweets' :
  timeline_page maxTweetID apiTweets tweets false = Some (tweets', true) →
  ∃ t, t ∈ apiTweets ∧ (maxTweetID ≠ 0 → twitter.ID t < maxTweetID)%Z.
Proof.
  intros (added & [= -> Hp] & Hids)%timeline_page_spec.
  destruct added as [|x added]; [done|].
  destruct (filter _ apiTweets) as [|t l] eqn:Hf; [done|].
  assert (t ∈ filter (λ t, ¬ (maxTweetID ≠ 0 ∧ maxTweetID ≤ twitter.ID t)%Z)
            apiTweets) as [Ht Hin]%list_elem_of_filter
    by (rewrite Hf; by left).
  exists t. split; [done|]. lia.
Qed.
End timeline_facts.

Section timeline_results.
Context `{Lib} (UserTimeline : nat → Z → option (list twitter.Tweet)).

(** What the loop keeps true of the collected tweets and the cursor at
    the head of an iteration. *)
Lemma timeline_step call maxTweetID apiTweets tweets tweets' last :
  descending twitter.ID apiTweets →
  (∀ t, t ∈ apiTweets → 0 < twitter.ID t)%Z →
  descending ID tweets →
  (∀ x, x ∈ tweets → maxTweetID ≤ ID x)%Z →
  (maxTweetID = 0%Z → tweets = []) →
  UserTimeline call maxTweetID = Some apiTweets →
  timeline_page maxTweetID apiTweets tweets false = Some (tweets', true) →
  apiTweets !! (length apiTweets - 1) = Some last →
  descending ID tweets' ∧
  (∀ x, x ∈ tweets' → twitter.ID last ≤ ID x)%Z ∧
  (0 < twitter.ID last)%Z ∧
  (maxTweetID ≠ 0 → twitter.ID last < maxTweetID)%Z.
Proof.
  intros Hsorted Hpos Hdesc Hlow Hzero _ Hpage Hlast.
  destruct (descending_last twitter.ID apiTweets last Hsorted Hlast)
    as [Hin Hmin].
  destruct (timeline_page_processed _ _ _ _ Hpage) as (t & Ht & Hbelow).
  destruct (timeline_page_spec _ _ _ _ _ Hpage) as (added & [= -> _] & Hids).
  set (kept := filter
    (λ t, ¬ (maxTweetID ≠ 0 ∧ maxTweetID ≤ twitter.ID t)%Z) apiTweets) in *.
  assert (∀ x, x ∈ added →
    ∃ t, t ∈ apiTweets ∧ ID x = twitter.ID t ∧
         (maxTweetID ≠ 0 → twitter.ID t < maxTweetID)%Z) as Hadded.
  { intros x Hx.
    assert (ID x ∈ twitter.ID <$> kept) as (t' & Hk & Hin')%list_elem_of_fmap
      by (rewrite <-Hids; by apply list_elem_of_fmap_2).
    apply list_elem_of_filter in Hin' as [Hnot Hin'].
    exists t'. split; [done|]. split; [done|]. lia. }
  assert (twitter.ID last < maxTweetID ∨ maxTweetID = 0)%Z as Hcursor.
  { destruct (decide (maxTweetID = 0%Z)) as [?|Hne]; [by right|left].
    specialize (Hmin t Ht). specialize (Hbelow Hne). lia. }
  split; [|split; [|split]].
  - apply StronglySorted_app. split; [|split].
    + intros x y Hx Hy. simpl.
      destruct (Hadded y Hy) as (t' & _ & -> & Hlt).
      specialize (Hlow x Hx).
      destruct (decide (maxTweetID = 0%Z)) as [Hz|Hnz].
      * rewrite (Hzero Hz) in Hx. by apply elem_of_nil in Hx.
      * specialize (Hlt Hnz). lia.
    + exact Hdesc.
    + apply (descending_keys ID twitter.ID added kept Hids).
      by apply descending_filter.
  - intros x [Hx|Hx]%elem_of_app.
    + specialize (Hlow x Hx). destruct Hcursor as [?|Hz]; [lia|].
      rewrite (Hzero Hz) in Hx. by apply elem_of_nil in Hx.
    + destruct (Hadded x Hx) as (t' & Ht' & -> & _). by apply Hmin.
  - by apply Hpos.
  - intros Hne. destruct Hcursor; [done|lia].
Qed.

Lemma timeline_pages_descending fuel call tweets maxTweetID result :
  (∀ call maxID page,
     UserTimeline call maxID = Some page → descending twitter.ID page) →
  (∀ call maxID page t,
     UserTimeline call maxID = Some page → t ∈ page → 0 < twitter.ID t)%Z →
  descending ID tweets →
  (∀ x, x ∈ tweets → maxTweetID ≤ ID x)%Z →
  (maxTweetID = 0%Z → tweets = []) →
  timeline_pages UserTimeline fuel call tweets maxTweetID
    = Some (Value result) →
  descending ID result.
Proof.
  intros Hsorted Hpos. revert call tweets maxTweetID.
  induction fuel as [|fuel IH]; intros call tweets maxTweetID
    Hdesc Hlow Hzero; simpl; [done|].
  destruct (UserTimeline call maxTweetID) as [apiTweets|] eqn:Hcall; [|done].
  destruct (timeline_page maxTweetID apiTweets tweets false)
    as [[tweets' [|]]|] eqn:Hpage; [| |done].
  - destruct (apiTweets !! (length apiTweets - 1)) as [last|] eqn:Hlast;
      [|done].
    destruct (timeline_step call maxTweetID apiTweets tweets tweets' last)
      as (Hdesc' & Hlow' & Hpos' & _); eauto.
    apply IH; [done|done|]. intros Hz. lia.
  - intros [= <-].
    destruct (timeline_page_spec _ _ _ _ _ Hpage) as (added & [= -> Hp] & _).
    destruct added; [|done]. by rewrite app_nil_r.
Qed.

Lemma timeline_pages_terminate fuel call tweets maxTweetID :
  (∀ call maxID page,
     UserTimeline call maxID = Some page → descending twitter.ID page) →
  (∀ call maxID page t,
     UserTimeline call maxID = Some page → t ∈ page → 0 < twitter.ID t)%Z →
  (0 < maxTweetID)%Z → Z.to_nat maxTweetID < fuel →
  is_Some (timeline_pages UserTimeline fuel call tweets maxTweetID).
Proof.
  intros Hsorted Hpos. revert call tweets maxTweetID.
  induction fuel as [|fuel IH]; intros call tweets maxTweetID Hm Hfuel;
    simpl; [lia|].
  destruct (UserTimeline call maxTweetID) as [apiTweets|] eqn:Hcall; [|done].
  destruct (timeline_page maxTweetID apiTweets tweets false)
    as [[tweets' [|]]|] eqn:Hpage; [|done|done].
  destruct (apiTweets !! (length apiTweets - 1)) as [last|] eqn:Hlast;
    [|done].
  destruct (descending_last twitter.ID apiTweets last) as [Hin Hmin];
    [by eapply Hsorted|done|].
  destruct (timeline_page_processed _ _ _ _ Hpage) as (t & Ht & Hbelow).
  specialize (Hmin t Ht).
  assert (0 < twitter.ID last)%Z by (by eapply Hpos).
  apply IH; lia.
Qed.

(** X21. The index expression apiTweets[len(apiTweets)-1] of the loop is
    never out of range, since it is reached only after a tweet of the
    page was processed: when tweetFromAPITweet panics on no tweet of any
    page, the loop does not panic, whatever the pages hold and however
    long it runs. *)
Theorem syncTwitter_last_index_in_range
    (fuel call : nat) (tweets : list Tweet) (maxTweetID : Z) :
  (∀ call maxID page t,
     UserTimeline call maxID = Some page → t ∈ page →
     is_Some (tweetFromAPITweet t)) →
  timeline_pages UserTimeline fuel call tweets maxTweetID ≠ Some Panic.
Proof.
  intros Hconv. revert call tweets maxTweetID.
  induction fuel as [|fuel IH]; intros call tweets maxTweetID; simpl;
    [done|].
  destruct (UserTimeline call maxTweetID) as [apiTweets|] eqn:Hcall; [|done].
  destruct (timeline_page maxTweetID apiTweets tweets false)
    as [[tweets' [|]]|] eqn:Hpage.
  - destruct (timeline_page_processed _ _ _ _ Hpage) as (t & Ht & _).
    destruct (apiTweets !! (length apiTweets - 1)) as [last|] eqn:Hlast;
      [apply IH|].
    apply lookup_ge_None in Hlast.
    destruct apiTweets; [by apply elem_of_nil in Ht|simpl in Hlast; lia].
  - done.
  - destruct (timeline_page_panic _ _ _ _ Hpage) as (t & Ht & Hnone).
    destruct (Hconv call maxTweetID apiTweets t Hcall Ht) as [x Hx].
    congruence.
Qed.

(** X22. When every page of the timeline is strictly descending by
    identifier and holds positive identifiers only, the tweets the loop
    has collected at its break are strictly descending by identifier, so
    no identifier is collected twice: the fresh batch handed to
    mergeTweets is free of duplicates. *)
Theorem syncTwitter_collects_descending
    (fuel : nat) (tweets : list Tweet) :
  (∀ call maxID page,
     UserTimeline call maxID = Some page → descending twitter.ID page) →
  (∀ call maxID page t,
     UserTimeline call maxID = Some page → t ∈ page → 0 < twitter.ID t)%Z →
  timeline_pages UserTimeline fuel 0 [] 0 = Some (Value tweets) →
  descending ID tweets ∧ NoDup (ID <$> tweets).
Proof.
  intros Hsorted Hpos Hrun.
  assert (descending ID tweets) as Hdesc.
  { apply (timeline_pages_descending fuel 0 [] 0%Z tweets Hsorted Hpos);
      [constructor| |done|done].
    intros x Hx. by apply elem_of_nil in Hx. }
  split; [done|]. by apply descending_NoDup.
Qed.

(** X23. Under the same assumption on the pages the loop terminates: some
    number of iterations brings it to its break, to the return of an
    error or to a panic of tweetFromAPITweet.  The cursor is positive and
    falls with every page that adds a tweet. *)
Theorem syncTwitter_terminates :
  (∀ call maxID page,
     UserTimeline call maxID = Some page → descending twitter.ID page) →
  (∀ call maxID page t,
     UserTimeline call maxID = Some page → t ∈ page → 0 < twitter.ID t)%Z →
  ∃ fuel result, timeline_pages UserTimeline fuel 0 [] 0 = Some result.
Proof.
  intros Hsorted Hpos.
  destruct (UserTimeline 0 0%Z) as [apiTweets|] eqn:Hcall;
    [|exists 1, Err; simpl; by rewrite Hcall].
  destruct (timeline_page 0 apiTweets [] false)
    as [[tweets' [|]]|] eqn:Hpage;
    [|exists 1, (Value tweets'); simpl; by rewrite Hcall, Hpage
     |exists 1, Panic; simpl; by rewrite Hcall, Hpage].
  destruct (apiTweets !! (length apiTweets - 1)) as [last|] eqn:Hlast;
    [|exists 1, Panic; simpl; by rewrite Hcall, Hpage, Hlast].
  destruct (descending_last twitter.ID apiTweets last) as [Hin _];
    [by eapply Hsorted|done|].
  assert (0 < twitter.ID last)%Z as Hl by (by eapply Hpos).
  destruct (timeline_pages_terminate (S (Z.to_nat (twitter.ID last))) 1
              tweets' (twitter.ID last) Hsorted Hpos Hl) as [result Hrun];
    [lia|].
  exists (S (S (Z.to_nat (twitter.ID last)))), result.
  simpl. rewrite Hcall, Hpage, Hlast. exact Hrun.
Qed.
End timeline_results.

Lemma syncTwitter_last_index_in_range_witness :
  timeline_pages sample_timeline 2 0 [] 0 ≠ Some Panic.
Proof.
  apply (syncTwitter_last_index_in_range sample_timeline 2 0 [] 0).
  intros call maxID page t [= <-] Ht.
  apply elem_of_cons in Ht as [->|Ht]; [by eexists|].
  apply elem_of_cons in Ht as [->|Ht]; [by eexists|].
  by apply elem_of_nil in Ht.
Defined.

Lemma syncTwitter_collects_descending_witness :
  descending ID sample_collected ∧ NoDup (ID <$> sample_collected).
Proof.
  apply (syncTwitter_collects_descending sample_timeline 2 sample_collected).
  - intros call maxID page [= <-].
    repeat (constructor; simpl; try lia).
  - intros call maxID page t [= <-] Ht.
    apply elem_of_cons in Ht as [->|Ht]; [simpl; lia|].
    apply elem_of_cons in Ht as [->|Ht]; [simpl; lia|].
    by apply elem_of_nil in Ht.
  - vm_compute. reflexivity.
Defined.

Lemma syncTwitter_terminates_witness :
  ∃ fuel result, timeline_pages sample_timeline fuel 0 [] 0 = Some result.
Proof.
  apply (syncTwitter_terminates sample_timeline).
  - intros call maxID page [= <-].
    repeat (constructor; simpl; try lia).
  - intros call maxID page t [= <-] Ht.
    apply elem_of_cons in Ht as [->|Ht]; [simpl; lia|].
    apply elem_of_cons in Ht as [->|Ht]; [simpl; lia|].
    by apply elem_of_nil in Ht.
Defined.

(** ** The reconcilers and their earlier revisions *)

Lemma filter_key_length {A} (key : A → Z) l k :
  NoDup (key <$> l) → length (filter (λ y, key y = k) l) ≤ 1.
Proof.
  induction l as [|x l IH]; intros Hnd; [simpl; lia|].
  rewrite fmap_cons in Hnd. apply NoDup_cons in Hnd as [Hx Hnd].
  destruct (decide (key x = k)) as [Hk|Hk].
  - rewrite filter_cons_True by done.
    rewrite (filter_key_not_elem_of key l k) by (by rewrite <-Hk).
    simpl. lia.
  - rewrite filter_cons_False by done. by apply IH.
Qed.

(** The pass changes nothing when no two neighbours are a trivial
    change. *)
Lemma flip_from_fixed x l :
  (∀ l1 a b l2, x :: l = l1 ++ a :: b :: l2 → ¬ trivial_change a b) →
  flip_from x l = x :: l.
Proof.
  revert x. induction l as [|y l IH]; intros x Hadj; simpl; [done|].
  rewrite decide_False by (by apply (Hadj [] x y l)).
  f_equal. apply IH. intros l1 a b l2 Heq.
  apply (Hadj (x :: l1) a b l2). simpl. by rewrite Heq.
Qed.

(** Two neighbours of one identifier in the sorted sequence of two
    batches without duplicates: the first is of the fresh batch and the
    second of the stored one. *)
Lemma sorted_neighbours fresh stored l1 a b l2 :
  NoDup (ID <$> fresh) → NoDup (ID <$> stored) →
  stable_sort (less_by ID) (fresh ++ stored) = l1 ++ a :: b :: l2 →
  ID a = ID b → a ∈ fresh ∧ b ∈ stored.
Proof.
  intros Hnf Hns Hsorted Hid.
  pose proof (stable_sort_filter ID (fresh ++ stored) (ID a)) as Hf.
  rewrite Hsorted, !filter_app in Hf.
  rewrite (filter_cons_True _ a), (filter_cons_True _ b) in Hf by done.
  pose proof (filter_key_length ID fresh (ID a) Hnf) as Hlf.
  pose proof (filter_key_length ID stored (ID a) Hns) as Hls.
  pose proof (f_equal length Hf) as Hlen.
  rewrite !length_app in Hlen. simpl in Hlen.
  destruct (filter (λ y, ID y = ID a) l1) as [|??]; [|simpl in Hlen; lia].
  destruct (filter (λ y, ID y = ID a) fresh) as [|f [|??]] eqn:Hfa;
    [simpl in *; lia| |simpl in *; lia].
  destruct (filter (λ y, ID y = ID a) stored) as [|s [|??]] eqn:Hsb;
    [simpl in *; lia| |simpl in *; lia].
  simpl in Hf. injection Hf as <- <- _. split.
  - assert (a ∈ filter (λ y, ID y = ID a) fresh) as [_ ?]%list_elem_of_filter
      by (rewrite Hfa; by left). done.
  - assert (b ∈ filter (λ y, ID y = ID a) stored) as [_ ?]%list_elem_of_filter
      by (rewrite Hsb; by left). done.
Qed.

(** X24. The pass over trivial changes is all that sets mergeTweets apart
    from its earlier revision: for batches without duplicate identifiers
    in which no tweet and its stored copy differ by noise only, the two
    revisions return the same slice and leave the same heap. *)
Theorem mergeTweets_agrees_with_earlier
    (h : heap Tweet) (apiTweets existingTweets : slice) :
  wf h apiTweets → wf h existingTweets →
  NoDup (ID <$> content h apiTweets) →
  NoDup (ID <$> content h existingTweets) →
  (∀ f s, f ∈ content h apiTweets → s ∈ content h existingTweets →
          ID f = ID s → ¬ noise_only f s) →
  mergeTweets h apiTweets existingTweets
    = Earlier.mergeTweets h apiTweets existingTweets.
Proof.
  intros Hf Hs Hnf Hns Hdiff.
  unfold mergeTweets, Earlier.mergeTweets.
  destruct (append_spec h apiTweets existingTweets Hf)
    as (h1 & s & -> & Hwfs & Hcs & _); [by apply content_length|].
  assert (wf (SliceStable (less_by ID) h1 s) s) as Hwf2
    by (by apply SliceStable_wf).
  rewrite flipDuplicateTweetsOnTrivialChanges_spec by done.
  assert (content (SliceStable (less_by ID) h1 s) s
          = stable_sort (less_by ID) (content h1 s)) as Hc2.
  { apply content_set_content; [done|].
    by rewrite stable_sort_length, content_length. }
  assert (flip_pairs (content (SliceStable (less_by ID) h1 s) s)
          = content (SliceStable (less_by ID) h1 s) s) as ->.
  { rewrite Hc2, Hcs.
    destruct (stable_sort (less_by ID)
                (content h apiTweets ++ content h existingTweets))
      as [|x l] eqn:Hsorted; [done|].
    apply flip_from_fixed. intros l1 a b l2 Heq [Hid Hnoise].
    rewrite Heq in Hsorted.
    destruct (sorted_neighbours _ _ _ _ _ _ Hnf Hns Hsorted Hid)
      as [Ha Hb].
    by apply (Hdiff a b). }
  by rewrite set_content_id.
Qed.

Lemma mergeTweets_agrees_with_earlier_witness :
  mergeTweets
    [ [tweet 125 "s1 125" 0 0; tweet 124 "s1 124" 0 0];
      [tweet 124 "s2 124" 0 0; tweet 123 "s2 123" 0 0] ]
    sample_fresh sample_stored
  = Earlier.mergeTweets
      [ [tweet 125 "s1 125" 0 0; tweet 124 "s1 124" 0 0];
        [tweet 124 "s2 124" 0 0; tweet 123 "s2 123" 0 0] ]
      sample_fresh sample_stored.
Proof.
  apply (mergeTweets_agrees_with_earlier
           [ [tweet 125 "s1 125" 0 0; tweet 124 "s1 124" 0 0];
             [tweet 124 "s2 124" 0 0; tweet 123 "s2 123" 0 0] ]
           sample_fresh sample_stored).
  - split; simpl; lia.
  - split; simpl; lia.
  - apply (bool_decide_unpack _). vm_compute. reflexivity.
  - apply (bool_decide_unpack _). vm_compute. reflexivity.
  - intros f s Hf Hs Hid (Htext & _). revert Hid Htext.
    apply elem_of_cons in Hf as [->|Hf];
      [|apply elem_of_cons in Hf as [->|Hf];
        [|by apply elem_of_nil in Hf]];
      (apply elem_of_cons in Hs as [->|Hs];
        [|apply elem_of_cons in Hs as [->|Hs];
          [|by apply elem_of_nil in Hs]]);
      vm_compute; intros; congruence.
Defined.

(** X25. Dropping the stored readings that the API no longer lists is all
    that sets mergeReadings apart from its earlier revision: when every
    stored review identifier occurs in the fresh batch, the two revisions
    return the same slice and leave the same heap. *)
Theorem mergeReadings_agrees_with_earlier
    (h : heap Reading) (apiReadings existingReadings : slice) :
  wf h apiReadings → wf h existingReadings →
  (∀ x, x ∈ content h existingReadings →
        ReviewID x ∈ ReviewID <$> content h apiReadings) →
  mergeReadings h apiReadings existingReadings
    = Earlier.mergeReadings h apiReadings existingReadings.
Proof.
  intros Hf Hs Hall. unfold mergeReadings, Earlier.mergeReadings.
  rewrite (sliceKeepOnly_spec ReviewID ReviewID h existingReadings
             apiReadings) by done.
  fold (kept_readings (content h apiReadings) (content h existingReadings)).
  rewrite kept_readings_all by done.
  rewrite drop_all, app_nil_r, set_content_id.
  rewrite (content_length h existingReadings Hs), reslice_len.
  done.
Qed.

Lemma mergeReadings_agrees_with_earlier_witness :
  mergeReadings sample_readings sample_stored_readings sample_fresh
    = Earlier.mergeReadings sample_readings sample_stored_readings
        sample_fresh.
Proof.
  apply (mergeReadings_agrees_with_earlier sample_readings
           sample_stored_readings sample_fresh).
  - split; simpl; lia.
  - split; simpl; lia.
  - intros x Hx. apply (bool_decide_unpack _). revert Hx.
    intros [->|Hx]%elem_of_cons; [vm_compute; reflexivity|].
    apply elem_of_cons in Hx as [->|Hx]; [vm_compute; reflexivity|].
    by apply elem_of_nil in Hx.
Defined.
